(** * txtCompress: the Huffman coding core of [app.py]

    A shallow embedding of [NoHuffman], [construir_arvore], [gerar_codigos]
    and [comprimir], together with the part of Python's [heapq] module the
    program calls, and the properties of the code tables and encoded outputs
    they produce.

    - A text is a [string]; its characters are [ascii] values.
    - A Python list is a [list], read with [!!] and written with [<[_:=_]>];
      an index out of range raises [IndexError].
    - The dictionary [frequencias] is a list of pairs in insertion order,
      the order in which the leaves are pushed on the heap.  The dictionary
      [codigos] is a finite map keyed by the [char] of nodes, which is a
      character or [None].
    - A function that may raise returns a [result]; a function that updates
      a list or a dictionary in place returns the updated one. *)

From stdpp Require Import gmap strings list fin_maps.
From Stdlib Require Import Lia Arith Ascii ZifyNat.

Set Warnings "-clear-no-such-hyp".

(** ** Exceptions

    Python code either returns a value or raises.  The only exception the
    embedded code can raise is [IndexError] (indexing or popping a list out
    of range). *)

Inductive exn : Type := IndexError.

Inductive result (A : Type) : Type :=
| Ok (a : A)
| Raise (e : exn).
Arguments Ok {A} a.
Arguments Raise {A} e.

#[global] Instance result_ret : MRet result := λ A, @Ok A.
#[global] Instance result_bind : MBind result := λ A B f m,
  match m with
  | Ok a => f a
  | Raise e => Raise e
  end.

(** [l[i]] and [l[i] = x] of a Python list, for an index [i >= 0]. *)
Definition getitem {A} (l : list A) (i : nat) : result A :=
  match l !! i with
  | Some x => Ok x
  | None => Raise IndexError
  end.

Definition setitem {A} (l : list A) (i : nat) (x : A) : result (list A) :=
  if bool_decide (i < length l) then Ok (<[i:=x]> l) else Raise IndexError.

(** ** The [heapq] module

    The functions as CPython's [Lib/heapq.py] writes them (its C version
    makes the same comparisons and ends with the same list).  A heap is a
    Python list; the functions below return the updated list.  The element
    order is the [<] of the elements ([__lt__]), the only comparison
    [heapq] uses. *)

Module heapq.
Section heapq.
Context {A : Type} (lt : A → A → bool).

(** The [while pos > startpos] loop of [_siftdown].  The position is
    halved at every turn, so [pos] turns are enough. *)
Fixpoint siftdown_loop (n : nat) (heap : list A) (startpos pos : nat)
    (newitem : A) : result (list A) :=
  match n with
  | 0 => setitem heap pos newitem
  | S n' =>
      if bool_decide (startpos < pos) then
        let parentpos := Nat.shiftr (pos - 1) 1 in
        parent ← getitem heap parentpos;
        if lt newitem parent then
          heap' ← setitem heap pos parent;
          siftdown_loop n' heap' startpos parentpos newitem
        else setitem heap pos newitem
      else setitem heap pos newitem
  end.

Definition _siftdown (heap : list A) (startpos pos : nat) : result (list A) :=
  newitem ← getitem heap pos;
  siftdown_loop pos heap startpos pos newitem.

(** The [while childpos < endpos] loop of [_siftup]: the smaller child is
    moved up until a leaf is reached.  Returns the list and the final
    [pos]. *)
Fixpoint siftup_loop (n : nat) (heap : list A) (endpos pos : nat)
    : result (list A * nat) :=
  match n with
  | 0 => Ok (heap, pos)
  | S n' =>
      let childpos := 2 * pos + 1 in
      if bool_decide (childpos < endpos) then
        let rightpos := childpos + 1 in
        childpos ←
          (if bool_decide (rightpos < endpos) then
             c ← getitem heap childpos;
             r ← getitem heap rightpos;
             Ok (if negb (lt c r) then rightpos else childpos)
           else Ok childpos);
        c ← getitem heap childpos;
        heap' ← setitem heap pos c;
        siftup_loop n' heap' endpos childpos
      else Ok (heap, pos)
  end.

Definition _siftup (heap : list A) (pos : nat) : result (list A) :=
  let endpos := length heap in
  let startpos := pos in
  newitem ← getitem heap pos;
  '(heap, pos) ← siftup_loop endpos heap endpos pos;
  heap ← setitem heap pos newitem;
  _siftdown heap startpos pos.

Definition heappush (heap : list A) (item : A) : result (list A) :=
  let heap := heap ++ [item] in
  _siftdown heap 0 (length heap - 1).

(** Returns the popped item and the remaining heap. *)
Definition heappop (heap : list A) : result (A * list A) :=
  match last heap with
  | None => Raise IndexError
  | Some lastelt =>
      let heap := removelast heap in
      if bool_decide (heap ≠ []) then
        returnitem ← getitem heap 0;
        heap ← setitem heap 0 lastelt;
        heap ← _siftup heap 0;
        Ok (returnitem, heap)
      else Ok (lastelt, heap)
  end.
End heapq.
End heapq.

(** ** [class NoHuffman]

    A node has a [char] (a character, or [None] in a merged node), a [freq]
    and two children that are nodes or [None]. *)

#[warnings="-register-all"]
Inductive NoHuffman : Type :=
  mkNoHuffman {
    char : option ascii;
    freq : nat;
    left : option NoHuffman;
    right : option NoHuffman
  }.

(** [NoHuffman.__init__]: both children start as [None]. *)
Definition NoHuffman_init (char : option ascii) (freq : nat) : NoHuffman :=
  mkNoHuffman char freq None None.

(** [NoHuffman.__lt__]. *)
Definition NoHuffman_lt (self other : NoHuffman) : bool :=
  bool_decide (freq self < freq other).

Definition set_left (no : NoHuffman) (l : option NoHuffman) : NoHuffman :=
  mkNoHuffman (char no) (freq no) l (right no).
Definition set_right (no : NoHuffman) (r : option NoHuffman) : NoHuffman :=
  mkNoHuffman (char no) (freq no) (left no) r.

(** ** [gerar_codigos]

    The dictionary [codigos] is keyed by the [char] values of nodes; the
    function updates it in place, here it returns the updated dictionary. *)

Fixpoint gerar_codigos_no (raiz : NoHuffman) (codigo_atual : string)
    (codigos : gmap (option ascii) string) : gmap (option ascii) string :=
  match raiz with
  | mkNoHuffman c _ l r =>
      match c with
      | Some _ => <[c := codigo_atual]> codigos
      | None =>
          let codigos :=
            match l with
            | Some no => gerar_codigos_no no (codigo_atual +:+ "0") codigos
            | None => codigos
            end in
          match r with
          | Some no => gerar_codigos_no no (codigo_atual +:+ "1") codigos
          | None => codigos
          end
      end
  end.

Definition gerar_codigos (raiz : option NoHuffman) (codigo_atual : string)
    (codigos : gmap (option ascii) string) : gmap (option ascii) string :=
  match raiz with
  | Some no => gerar_codigos_no no codigo_atual codigos
  | None => codigos
  end.

(** ** [construir_arvore] *)

(** [frequencias[char] += 1] on a [defaultdict(int)]: a dictionary keeps its
    keys in the order of their first insertion, which is the order in which
    [items()] yields them. *)
Fixpoint incrementar (frequencias : list (ascii * nat)) (c : ascii)
    : list (ascii * nat) :=
  match frequencias with
  | [] => [(c, 0 + 1)]
  | (k, v) :: resto =>
      if decide (k = c) then (k, v + 1) :: resto
      else (k, v) :: incrementar resto c
  end.

Fixpoint contar_desde (frequencias : list (ascii * nat)) (texto : string)
    : list (ascii * nat) :=
  match texto with
  | EmptyString => frequencias
  | String c resto => contar_desde (incrementar frequencias c) resto
  end.

(** The frequency table of lines 23-25. *)
Definition contar (texto : string) : list (ascii * nat) :=
  contar_desde [] texto.

(** Lines 27-29: one leaf per entry, pushed in the table's order. *)
Fixpoint empilhar (heap : list NoHuffman) (itens : list (ascii * nat))
    : result (list NoHuffman) :=
  match itens with
  | [] => Ok heap
  | (c, f) :: resto =>
      heap ← heapq.heappush NoHuffman_lt heap (NoHuffman_init (Some c) f);
      empilhar heap resto
  end.

(** The [while len(heap) > 1] loop.  Every turn shortens the heap by one,
    so [len(heap)] turns are enough. *)
Fixpoint fundir (n : nat) (heap : list NoHuffman) : result (list NoHuffman) :=
  match n with
  | 0 => Ok heap
  | S n' =>
      if bool_decide (1 < length heap) then
        '(no1, heap) ← heapq.heappop NoHuffman_lt heap;
        '(no2, heap) ← heapq.heappop NoHuffman_lt heap;
        let novo_no := NoHuffman_init None (freq no1 + freq no2) in
        let novo_no := set_left novo_no (Some no1) in
        let novo_no := set_right novo_no (Some no2) in
        heap ← heapq.heappush NoHuffman_lt heap novo_no;
        fundir n' heap
      else Ok heap
  end.

Definition construir_arvore (texto : string)
    : result (option NoHuffman * gmap (option ascii) string) :=
  if bool_decide (texto = "") then Ok (None, ∅)
  else
    let frequencias := contar texto in
    heap ← empilhar [] frequencias;
    if bool_decide (length heap = 1) then
      '(raiz, _) ← heapq.heappop NoHuffman_lt heap;
      let codigos : gmap (option ascii) string := {[ char raiz := "0" ]} in
      Ok (Some raiz, codigos)
    else
      heap ← fundir (length heap) heap;
      '(raiz, _) ← heapq.heappop NoHuffman_lt heap;
      let codigos := gerar_codigos (Some raiz) "" ∅ in
      Ok (Some raiz, codigos).

(** ** [comprimir] *)

Fixpoint juntar (codigos : gmap (option ascii) string) (texto : string) : string :=
  match texto with
  | EmptyString => ""
  | String c resto => default "" (codigos !! Some c) +:+ juntar codigos resto
  end.

Definition comprimir (texto : string) (codigos : gmap (option ascii) string)
    : string :=
  if bool_decide (codigos = ∅) then ""
  else juntar codigos texto.


(** ** Heap order

    The heap invariant of [heapq]: no element is smaller than its parent,
    the parent of index [i > 0] being at [(i - 1) >> 1], that is
    [Nat.div2 (i - 1)]. *)

Definition heap_at {A} (key : A → nat) (h : list A) (i : nat) : Prop :=
  ∀ x p, h !! i = Some x → h !! Nat.div2 (i - 1) = Some p → key p ≤ key x.

Definition is_heap {A} (key : A → nat) (h : list A) : Prop :=
  ∀ i, 0 < i → heap_at key h i.

(** The state of [_siftdown]'s loop: the list is in heap order once
    [newitem] is written at [pos], except perhaps between [pos] and its
    parent. *)
Definition hole_inv {A} (key : A → nat) (h : list A) (pos : nat) (newitem : A)
    : Prop :=
  (∀ i, 0 < i → i ≠ pos → Nat.div2 (i - 1) ≠ pos → heap_at key h i) ∧
  (∀ i c, 0 < i → Nat.div2 (i - 1) = pos → h !! i = Some c →
     key newitem ≤ key c) ∧
  (∀ i c p, 0 < i → 0 < pos → Nat.div2 (i - 1) = pos → h !! i = Some c →
     h !! Nat.div2 (pos - 1) = Some p → key p ≤ key c).

(** The state of [_siftup]'s first loop: heap order holds everywhere but
    below the root while the hole is still at the root. *)
Definition bubble_inv {A} (key : A → nat) (h : list A) (pos : nat) : Prop :=
  ∀ i, 0 < i → (pos = 0 → Nat.div2 (i - 1) ≠ 0) → heap_at key h i.

(** ** Trees *)

(** A leaf made by line 29. *)
Definition folha (p : ascii * nat) : NoHuffman :=
  NoHuffman_init (Some p.1) p.2.

(** Every node of a tree, the root first. *)
Fixpoint nos (no : NoHuffman) : list NoHuffman :=
  match no with
  | mkNoHuffman c f l r =>
      mkNoHuffman c f l r ::
      (match l with Some e => nos e | None => [] end) ++
      (match r with Some d => nos d | None => [] end)
  end.

(** The shape of the trees the program builds: a node with a character has
    no child, a node without one has two children and carries the sum of
    their frequencies. *)
Inductive arvore_ok : NoHuffman → Prop :=
| arvore_folha c f : arvore_ok (mkNoHuffman (Some c) f None None)
| arvore_interna l r :
    arvore_ok l → arvore_ok r →
    arvore_ok (mkNoHuffman None (freq l + freq r) (Some l) (Some r)).

(** The leaves of a tree from left to right: character, frequency and the
    path from the root ([0] for left, [1] for right) appended to [prefixo],
    as [gerar_codigos] accumulates it. *)
Fixpoint folhas (no : NoHuffman) (prefixo : string)
    : list (ascii * nat * string) :=
  match no with
  | mkNoHuffman c f l r =>
      match c with
      | Some a => [(a, f, prefixo)]
      | None =>
          (match l with Some e => folhas e (prefixo +:+ "0") | None => [] end) ++
          (match r with Some d => folhas d (prefixo +:+ "1") | None => [] end)
      end
  end.

(** Character and frequency of every leaf. *)
Definition pares (no : NoHuffman) : list (ascii * nat) :=
  (λ x, x.1) <$> folhas no "".

(** The sum, over the leaves, of frequency times depth. *)
Fixpoint custo_arvore (no : NoHuffman) : nat :=
  match no with
  | mkNoHuffman c f l r =>
      match c with
      | Some _ => 0
      | None =>
          (match l with Some e => custo_arvore e + freq e | None => 0 end) +
          (match r with Some d => custo_arvore d + freq d | None => 0 end)
      end
  end.

(** ** Code tables *)

(** A string of '0' and '1' characters. *)
Fixpoint binario (s : string) : bool :=
  match s with
  | EmptyString => true
  | String b s' =>
      (bool_decide (b = "0"%char) || bool_decide (b = "1"%char)) && binario s'
  end.

(** The sum of [frequency[s] * length(code[s])] over the symbols of a
    frequency table (a symbol without a code counts for nothing). *)
Definition custo (frequencias : list (ascii * nat))
    (codigos : gmap (option ascii) string) : nat :=
  sum_list_with
    (λ p, p.2 * String.length (default "" (codigos !! Some p.1))) frequencias.

(** A binary prefix code for the symbols of a frequency table: every symbol
    has a code of binary digits, and no symbol's code is a prefix of
    another symbol's. *)
Definition codigo_prefixo (frequencias : list (ascii * nat))
    (codigos : gmap (option ascii) string) : Prop :=
  (∀ c, c ∈ frequencias.*1 →
     ∃ v, codigos !! Some c = Some v ∧ binario v = true) ∧
  (∀ c1 c2 v1 v2, c1 ∈ frequencias.*1 → c2 ∈ frequencias.*1 → c1 ≠ c2 →
     codigos !! Some c1 = Some v1 → codigos !! Some c2 = Some v2 →
     String.prefix v1 v2 = false).

(** A code table as the data model has it: a binary prefix code whose codes
    are not empty. *)
Definition tabela_prefixa (frequencias : list (ascii * nat))
    (codigos : gmap (option ascii) string) : Prop :=
  codigo_prefixo frequencias codigos ∧
  ∀ c v, c ∈ frequencias.*1 → codigos !! Some c = Some v → v ≠ "".

(** ** Decoding

    The repository has no decoder.  The round-trip property is stated for
    the one the specification describes: at each position of the encoded
    output it matches the longest prefix that is a code of the table, emits
    its symbol and goes on after it. *)

(** Modelled from the spec: the inverse lookup of the decoder, which the
    repository does not have.  The symbol whose code is [codigo], if there
    is one. *)
Definition simbolo_de (codigos : gmap (option ascii) string) (codigo : string)
    : option ascii :=
  head (omap (λ kv, if bool_decide (kv.2 = codigo) then kv.1 else None)
          (map_to_list codigos)).

(** Modelled from the spec: the greedy match of the decoder, which the
    repository does not have.  The longest non-empty prefix of [resto]
    which, appended to [lido], is a code: its symbol and what follows it. *)
Fixpoint casar (codigos : gmap (option ascii) string) (lido resto : string)
    : option (ascii * string) :=
  match resto with
  | EmptyString => None
  | String b resto' =>
      let lido' := lido +:+ String b "" in
      match casar codigos lido' resto' with
      | Some r => Some r
      | None => (λ c, (c, resto')) <$> simbolo_de codigos lido'
      end
  end.

(** Modelled from the spec: the decoder, which the repository does not
    have.  Every match consumes at least one digit, so [n] matches are
    enough for [n] digits; [None] when some position has no match. *)
Fixpoint decodificar_ate (n : nat) (codigos : gmap (option ascii) string)
    (bits : string) : option string :=
  match bits with
  | EmptyString => Some ""
  | String _ _ =>
      match n with
      | 0 => None
      | S n' =>
          '(c, resto) ← casar codigos "" bits;
          String c <$> decodificar_ate n' codigos resto
      end
  end.

(** Modelled from the spec: decoding of an encoded output, which the
    repository does not have. *)
Definition decodificar (codigos : gmap (option ascii) string) (bits : string)
    : option string :=
  decodificar_ate (String.length bits) codigos bits.

(** ** Kraft sums

    For code lengths [ls], all at most [k], the sum of [2 ^ (k - l)]; a
    binary prefix code has a sum of at most [2 ^ k]. *)
Definition ksum (k : nat) (ls : list nat) : nat :=
  sum_list_with (λ l, 2 ^ (k - l)) ls.

Definition kraft (ls : list nat) : Prop :=
  ksum (max_list ls) ls ≤ 2 ^ max_list ls.

(** The cost of giving the weights [ls.*1] the code lengths [ls.*2]. *)
Definition custo_de (ls : list (nat * nat)) : nat :=
  sum_list_with (λ p, p.1 * p.2) ls.

(** No string of the list is a prefix of another one (at another
    position). *)
Fixpoint livre_de_prefixos (cs : list string) : Prop :=
  match cs with
  | [] => True
  | c :: resto =>
      (∀ v, v ∈ resto → String.prefix c v = false ∧ String.prefix v c = false) ∧
      livre_de_prefixos resto
  end.

(** The rests of the strings that start with the digit [b]. *)
Definition restos (b : ascii) (cs : list string) : list string :=
  omap (λ c, match c with
             | String x t => if decide (x = b) then Some t else None
             | EmptyString => None
             end) cs.

(** ** Helpers of the statements *)

(** Python's [s * n]. *)
Fixpoint repetir (s : string) (n : nat) : string :=
  match n with
  | 0 => ""
  | S n' => s +:+ repetir s n'
  end.

(** The text without the symbols that have no entry in the code table. *)
Fixpoint so_codificados (codigos : gmap (option ascii) string)
    (texto : string) : string :=
  match texto with
  | EmptyString => ""
  | String c resto =>
      if decide (is_Some (codigos !! Some c))
      then String c (so_codificados codigos resto)
      else so_codificados codigos resto
  end.

(** The number of occurrences of a character in a text. *)
Fixpoint ocorrencias (c : ascii) (texto : string) : nat :=
  match texto with
  | EmptyString => 0
  | String a resto => (if decide (a = c) then 1 else 0) + ocorrencias c resto
  end.

(** The count a frequency table holds for a character ([0] without an
    entry). *)
Definition valor (frequencias : list (ascii * nat)) (c : ascii) : nat :=
  sum_list_with (λ p, if decide (p.1 = c) then p.2 else 0) frequencias.


(** ** The size metrics of [main]

    Lines 115-119 of [main]: the tree and the table are built, the text is
    encoded, and two sizes in bits are taken: eight times the number of
    bytes of the text in UTF-8, and the number of characters of the encoded
    output. *)

(** [str.encode('utf-8')] of one character.  A character is a code point
    below 256: below 128 it is one byte, [0xxxxxxx]; from 128 on it is two
    bytes, [110000xx 10xxxxxx]. *)
Definition utf8 (c : ascii) : list Byte.byte :=
  match c with
  | Ascii b0 b1 b2 b3 b4 b5 b6 b7 =>
      if b7 then
        [byte_of_ascii (Ascii b6 true false false false false true true);
         byte_of_ascii (Ascii b0 b1 b2 b3 b4 b5 false true)]
      else [byte_of_ascii c]
  end.

(** [texto.encode('utf-8')]. *)
Fixpoint encode_utf8 (texto : string) : list Byte.byte :=
  match texto with
  | EmptyString => []
  | String c resto => utf8 c ++ encode_utf8 resto
  end.

(** [len(texto_original.encode('utf-8')) * 8]. *)
Definition tamanho_original (texto_original : string) : nat :=
  length (encode_utf8 texto_original) * 8.

(** The bits of a byte, the most significant first, as '0' and '1'. *)
Definition digito (b : bool) : ascii := if b then "1"%char else "0"%char.

Definition bits_de (b : Byte.byte) : string :=
  match ascii_of_byte b with
  | Ascii b0 b1 b2 b3 b4 b5 b6 b7 =>
      String (digito b7) (String (digito b6) (String (digito b5)
        (String (digito b4) (String (digito b3) (String (digito b2)
          (String (digito b1) (String (digito b0) "")))))))
  end.

(** UTF-8 as a code: the bits of the bytes of a character. *)
Definition codigo_utf8 (c : ascii) : string :=
  foldr (λ b s, bits_de b +:+ s) "" (utf8 c).

(** [len(texto_comprimido_str)] for the text encoded at lines 115-116. *)
Definition tamanho_comprimido (texto_original : string) : result nat :=
  '(raiz, codigos) ← construir_arvore texto_original;
  let texto_comprimido_str := comprimir texto_original codigos in
  Ok (String.length texto_comprimido_str).

(** ** Statements about trees *)

(** In every node with two children the left one is no heavier than the
    right one. *)
Definition esquerda_leve (raiz : NoHuffman) : Prop :=
  ∀ n l r, n ∈ nos raiz → left n = Some l → right n = Some r →
           freq l ≤ freq r.

(** The entries [gerar_codigos] writes, in the order it writes them. *)
Definition escritas (raiz : option NoHuffman) (codigo_atual : string)
    : list (ascii * nat * string) :=
  match raiz with
  | Some no => folhas no codigo_atual
  | None => []
  end.

(** * Proofs *)


(** * Facts about the exception monad and list indexing *)

(** One step of a computation whose first part has returned. *)
Ltac passo := cbn [mbind result_bind].

Lemma getitem_Some {A} (l : list A) i x : l !! i = Some x → getitem l i = Ok x.
Proof. unfold getitem. by intros ->. Qed.

Lemma getitem_lt {A} (l : list A) i :
  i < length l → ∃ x, l !! i = Some x ∧ getitem l i = Ok x.
Proof.
  intros Hi. destruct (lookup_lt_is_Some_2 l i Hi) as [x Hx].
  exists x. split; [done | by apply getitem_Some].
Qed.

Lemma setitem_lt {A} (l : list A) i x :
  i < length l → setitem l i x = Ok (<[i:=x]> l).
Proof. intros Hi. unfold setitem. by rewrite bool_decide_eq_true_2. Qed.

(** Writing [x] over [y] and [y] over [x] at two positions permutes a list. *)
Lemma insert_cons_perm {A} (t : list A) j x y :
  t !! j = Some y → y :: <[j:=x]> t ≡ₚ x :: t.
Proof.
  revert j. induction t as [|b t IH]; intros [|j] Hj; simplify_eq/=.
  - apply perm_swap.
  - rewrite (perm_swap b y), (IH _ Hj). apply perm_swap.
Qed.

Lemma insert_swap_perm {A} (l : list A) i j x y :
  l !! i = Some x → l !! j = Some y → <[j:=x]> (<[i:=y]> l) ≡ₚ l.
Proof.
  revert i j. induction l as [|a l IH]; intros [|i] [|j] Hi Hj; simplify_eq/=.
  - done.
  - by apply insert_cons_perm.
  - by apply insert_cons_perm.
  - f_equiv. by apply IH.
Qed.

Lemma insert_move_perm {A} (l : list A) i j x y :
  i ≠ j → i < length l → l !! j = Some y →
  <[j:=x]> (<[i:=y]> l) ≡ₚ <[i:=x]> l.
Proof.
  intros Hij Hi Hj.
  rewrite <-(list_insert_insert_eq l i y x).
  apply insert_swap_perm.
  - by apply list_lookup_insert_eq.
  - by rewrite list_lookup_insert_ne.
Qed.

(** * [heapq]: every operation succeeds and permutes *)

Section heapq_perm.
Context {A : Type} (lt : A → A → bool).

Lemma siftdown_loop_perm n (h : list A) s pos x :
  pos < length h →
  ∃ h', heapq.siftdown_loop lt n h s pos x = Ok h' ∧ h' ≡ₚ <[pos:=x]> h.
Proof.
  revert h pos. induction n as [|n IH]; intros h pos Hpos; simpl.
  { rewrite setitem_lt by done. eauto. }
  case_bool_decide as Hs; [|rewrite setitem_lt by done; eauto].
  destruct (getitem_lt h (Nat.div2 (pos - 1))) as (p & Hp & ->); [lia|]; simpl.
  destruct (lt x p); [|rewrite setitem_lt by done; eauto].
  rewrite setitem_lt by done; simpl.
  destruct (IH (<[pos:=p]> h) (Nat.div2 (pos - 1))) as (h' & -> & Hh').
  { rewrite length_insert. lia. }
  exists h'. split; [done|].
  rewrite Hh'. apply insert_move_perm; [lia | done | done].
Qed.

Lemma siftdown_perm (h : list A) s pos :
  pos < length h → ∃ h', heapq._siftdown lt h s pos = Ok h' ∧ h' ≡ₚ h.
Proof.
  intros Hpos. unfold heapq._siftdown.
  destruct (getitem_lt h pos Hpos) as (x & Hx & ->); simpl.
  destruct (siftdown_loop_perm pos h s pos x Hpos) as (h' & -> & Hh').
  exists h'. split; [done|]. by rewrite Hh', list_insert_id.
Qed.

Lemma siftup_loop_perm n (h : list A) pos :
  pos < length h →
  ∃ h' pos', heapq.siftup_loop lt n h (length h) pos = Ok (h', pos') ∧
    pos' < length h ∧ length h' = length h ∧
    ∀ x, <[pos':=x]> h' ≡ₚ <[pos:=x]> h.
Proof.
  revert h pos. induction n as [|n IH]; intros h pos Hpos;
    cbn [heapq.siftup_loop].
  { exists h, pos. eauto. }
  case_bool_decide as Hc; [|exists h, pos; eauto].
  assert (∃ c, (if bool_decide (2 * pos + 1 + 1 < length h)
      then c ← getitem h (2 * pos + 1); r ← getitem h (2 * pos + 1 + 1);
           Ok (if negb (lt c r) then 2 * pos + 1 + 1 else 2 * pos + 1)
      else Ok (2 * pos + 1)) = Ok c ∧ pos < c < length h) as (c & -> & Hcl).
  { case_bool_decide as Hr; [|exists (2 * pos + 1); split; [done|lia]].
    destruct (getitem_lt h (2 * pos + 1)) as (a & _ & ->); [lia|].
    destruct (getitem_lt h (2 * pos + 1 + 1)) as (b & _ & ->); [lia|].
    passo.
    destruct (lt a b); cbn [negb]; eexists; (split; [done|lia]). }
  passo.
  destruct (getitem_lt h c) as (a & Ha & ->); [lia|]; passo.
  rewrite setitem_lt by done; passo.
  destruct (IH (<[pos:=a]> h) c) as (h' & pos' & Hl & Hp' & Hlen & Hperm).
  { rewrite length_insert. lia. }
  rewrite length_insert in Hl, Hp', Hlen.
  exists h', pos'. split_and!; [done..|].
  intros x. rewrite Hperm. apply insert_move_perm; [lia | done | done].
Qed.

Lemma siftup_perm (h : list A) pos :
  pos < length h → ∃ h', heapq._siftup lt h pos = Ok h' ∧ h' ≡ₚ h.
Proof.
  intros Hpos. unfold heapq._siftup.
  destruct (getitem_lt h pos Hpos) as (x & Hx & ->); simpl.
  destruct (siftup_loop_perm (length h) h pos Hpos)
    as (h1 & pos1 & -> & Hp1 & Hlen & Hperm); simpl.
  rewrite setitem_lt by lia; simpl.
  destruct (siftdown_perm (<[pos1:=x]> h1) pos pos1) as (h' & -> & Hh').
  { rewrite length_insert. lia. }
  exists h'. split; [done|]. by rewrite Hh', Hperm, list_insert_id.
Qed.

Lemma heappush_perm (h : list A) x :
  ∃ h', heapq.heappush lt h x = Ok h' ∧ h' ≡ₚ x :: h.
Proof.
  unfold heapq.heappush.
  destruct (siftdown_perm (h ++ [x]) 0 (length (h ++ [x]) - 1))
    as (h' & -> & Hh').
  { rewrite length_app. simpl. lia. }
  exists h'. split; [done|]. by rewrite Hh', Permutation_app_comm.
Qed.

Lemma removelast_snoc (l : list A) x : removelast (l ++ [x]) = l.
Proof. by rewrite removelast_app, app_nil_r. Qed.

Lemma heappop_perm (h : list A) :
  h ≠ [] → ∃ x h', heapq.heappop lt h = Ok (x, h') ∧ h ≡ₚ x :: h'.
Proof.
  intros Hne. unfold heapq.heappop.
  destruct (last h) as [e|] eqn:Hlast; [|by apply last_None in Hlast].
  apply last_Some in Hlast as [h0 ->]. rewrite removelast_snoc.
  case_bool_decide as H0.
  - destruct h0 as [|r t]; [done|]. simpl.
    destruct (siftup_perm (e :: t) 0) as (h' & -> & Hh'); [simpl; lia|].
    simpl. exists r, h'. split; [done|].
    rewrite Hh'. simpl. f_equiv. symmetry. apply Permutation_cons_append.
  - exists e, h0. split; [done|].
    symmetry. apply Permutation_cons_append.
Qed.
(** ** The loops run to their end

    A loop with a bound on its turns is the [while] loop it stands for
    when the bound is never what ends it: any bound that is large enough
    gives the same result. *)

Lemma siftdown_loop_fuel n m (h : list A) s pos x :
  pos ≤ n → pos ≤ m →
  heapq.siftdown_loop lt n h s pos x = heapq.siftdown_loop lt m h s pos x.
Proof.
  revert m h pos. induction n as [|n IH]; intros [|m] h pos Hn Hm;
    cbn [heapq.siftdown_loop]; try done.
  - by rewrite bool_decide_eq_false_2 by lia.
  - by rewrite bool_decide_eq_false_2 by lia.
  - case_bool_decide as Hs; [|done].
    destruct (getitem h _) as [p|e]; [|done]. passo.
    destruct (lt x p); [|done].
    destruct (setitem h pos p) as [h'|e]; [|done]. passo.
    apply IH; cbn [Nat.shiftr Nat.iter nat_rect]; lia.
Qed.

Lemma siftup_loop_fuel n m (h : list A) endpos pos :
  endpos ≤ pos + n → endpos ≤ pos + m →
  heapq.siftup_loop lt n h endpos pos = heapq.siftup_loop lt m h endpos pos.
Proof.
  revert m h pos. induction n as [|n IH]; intros [|m] h pos Hn Hm;
    cbn [heapq.siftup_loop]; try done.
  - by rewrite bool_decide_eq_false_2 by lia.
  - by rewrite bool_decide_eq_false_2 by lia.
  - case_bool_decide as Hc; [|done].
    case_bool_decide as Hr.
    + destruct (getitem h (2 * pos + 1)) as [c|e]; [|done].
      destruct (getitem h (2 * pos + 1 + 1)) as [r|e]; [|done].
      passo.
      destruct (negb (lt c r)).
      * destruct (getitem h _) as [c'|e]; [|done]. passo.
        destruct (setitem h pos c') as [h'|e]; [|done].
        passo. apply IH; lia.
      * destruct (getitem h _) as [c'|e]; [|done]. passo.
        destruct (setitem h pos c') as [h'|e]; [|done].
        passo. apply IH; lia.
    + passo.
      destruct (getitem h _) as [c'|e]; [|done]. passo.
      destruct (setitem h pos c') as [h'|e]; [|done].
      passo. apply IH; lia.
Qed.
End heapq_perm.


(** * [heapq]: heap order is kept and the root is a minimum *)

Section heapq_order.
Context {A : Type} (lt : A → A → bool) (key : A → nat).
Hypothesis lt_key : ∀ a b, lt a b = bool_decide (key a < key b).

Lemma hole_fill (h : list A) pos x :
  pos < length h → hole_inv key h pos x →
  (0 < pos → ∀ p, h !! Nat.div2 (pos - 1) = Some p → key p ≤ key x) →
  is_heap key (<[pos:=x]> h).
Proof.
  intros Hpos (H1 & H2 & H3) Hpar i Hi xi p Hxi Hp.
  destruct (decide (i = pos)) as [->|Hne].
  - rewrite list_lookup_insert_eq in Hxi by done. simplify_eq.
    rewrite list_lookup_insert_ne in Hp by lia. by apply Hpar.
  - rewrite list_lookup_insert_ne in Hxi by done.
    destruct (decide (Nat.div2 (i - 1) = pos)) as [Heq|Hne'].
    + rewrite Heq, list_lookup_insert_eq in Hp by done. simplify_eq.
      by eapply H2.
    + rewrite list_lookup_insert_ne in Hp by done. by eapply H1.
Qed.

Lemma hole_step (h : list A) pos x p :
  0 < pos → pos < length h → hole_inv key h pos x →
  h !! Nat.div2 (pos - 1) = Some p → key x < key p →
  hole_inv key (<[pos:=p]> h) (Nat.div2 (pos - 1)) x.
Proof.
  intros H0 Hpos (H1 & H2 & H3) Hp Hlt. split_and!.
  - intros i Hi Hne Hne' xi q Hxi Hq.
    assert (i ≠ pos) by (intros ->; done).
    rewrite list_lookup_insert_ne in Hxi by done.
    destruct (decide (Nat.div2 (i - 1) = pos)) as [Heq|Hnp].
    + rewrite Heq, list_lookup_insert_eq in Hq by done. simplify_eq.
      by eapply H3.
    + rewrite list_lookup_insert_ne in Hq by done. by eapply H1.
  - intros i c Hi Hpar Hc.
    destruct (decide (i = pos)) as [->|Hne].
    + rewrite list_lookup_insert_eq in Hc by done. simplify_eq. lia.
    + rewrite list_lookup_insert_ne in Hc by done.
      assert (key p ≤ key c); [|lia].
      eapply (H1 i); [done|done|lia|done|]. by rewrite Hpar.
  - intros i c q Hi Hpp Hpar Hc Hq.
    rewrite list_lookup_insert_ne in Hq by lia.
    assert (key q ≤ key p).
    { eapply (H1 (Nat.div2 (pos - 1))); [done|lia|lia|done|done]. }
    destruct (decide (i = pos)) as [->|Hne].
    + rewrite list_lookup_insert_eq in Hc by done. by simplify_eq.
    + rewrite list_lookup_insert_ne in Hc by done.
      assert (key p ≤ key c); [|lia].
      eapply (H1 i); [done|done|lia|done|]. by rewrite Hpar.
Qed.

Lemma siftdown_loop_heap n (h : list A) pos x h' :
  pos ≤ n → pos < length h → hole_inv key h pos x →
  heapq.siftdown_loop lt n h 0 pos x = Ok h' → is_heap key h'.
Proof.
  revert h pos. induction n as [|n IH]; intros h pos Hn Hpos Hinv;
    cbn [heapq.siftdown_loop].
  { rewrite setitem_lt by done. intros [= <-].
    apply hole_fill; [done|done|lia]. }
  case_bool_decide as Hs.
  2:{ rewrite setitem_lt by done. intros [= <-].
      apply hole_fill; [done|done|lia]. }
  cbn [Nat.shiftr Nat.iter nat_rect].
  destruct (getitem_lt h (Nat.div2 (pos - 1))) as (p & Hp & ->); [lia|].
  passo. rewrite lt_key. case_bool_decide as Hlt.
  - rewrite setitem_lt by done. passo.
    apply IH; [lia | rewrite length_insert; lia |].
    by apply hole_step.
  - rewrite setitem_lt by done. intros [= <-].
    apply hole_fill; [done|done|].
    intros _ q Hq. simplify_eq. lia.
Qed.

Lemma siftdown_heap (h : list A) pos x h' :
  h !! pos = Some x → hole_inv key h pos x →
  heapq._siftdown lt h 0 pos = Ok h' → is_heap key h'.
Proof.
  intros Hx Hinv. unfold heapq._siftdown.
  rewrite (getitem_Some _ _ _ Hx). passo.
  apply siftdown_loop_heap; [done | by eapply lookup_lt_Some | done].
Qed.

Lemma siftup_choice (h : list A) pos :
  2 * pos + 1 < length h →
  ∃ c, (if bool_decide (2 * pos + 1 + 1 < length h)
        then c ← getitem h (2 * pos + 1); r ← getitem h (2 * pos + 1 + 1);
             Ok (if negb (lt c r) then 2 * pos + 1 + 1 else 2 * pos + 1)
        else Ok (2 * pos + 1)) = Ok c ∧
    pos < c < length h ∧ Nat.div2 (c - 1) = pos ∧
    ∀ a i xi, h !! c = Some a → 0 < i → Nat.div2 (i - 1) = pos →
      h !! i = Some xi → key a ≤ key xi.
Proof.
  intros Hc. case_bool_decide as Hr.
  - destruct (getitem_lt h (2 * pos + 1)) as (l & Hl & ->); [lia|].
    destruct (getitem_lt h (2 * pos + 1 + 1)) as (r & Hr' & ->); [lia|].
    passo. rewrite lt_key.
    case_bool_decide as Hlt; cbn [negb]; eexists; split; try done.
    + split_and!; [lia..|]. intros a i xi Ha Hi Hpar Hxi.
      assert (i = 2 * pos + 1 ∨ i = 2 * pos + 1 + 1) as [->| ->] by lia;
        simplify_eq; lia.
    + split_and!; [lia..|]. intros a i xi Ha Hi Hpar Hxi.
      assert (i = 2 * pos + 1 ∨ i = 2 * pos + 1 + 1) as [->| ->] by lia;
        simplify_eq; lia.
  - eexists; split; [done|]. split_and!; [lia..|].
    intros a i xi Ha Hi Hpar Hxi. apply lookup_lt_Some in Hxi as Hlen.
    assert (i = 2 * pos + 1) as -> by lia. by simplify_eq.
Qed.

Lemma bubble_step (h : list A) pos c a :
  pos < c < length h → Nat.div2 (c - 1) = pos → h !! c = Some a →
  (∀ i xi, 0 < i → Nat.div2 (i - 1) = pos → h !! i = Some xi →
     key a ≤ key xi) →
  bubble_inv key h pos → bubble_inv key (<[pos:=a]> h) c.
Proof.
  intros Hc Hpar Ha Hmin Hinv i Hi _ xi p Hxi Hp.
  destruct (decide (i = pos)) as [->|Hne].
  - rewrite list_lookup_insert_eq in Hxi by lia. injection Hxi as ->.
    rewrite list_lookup_insert_ne in Hp by lia.
    destruct (lookup_lt_is_Some_2 h pos) as [y Hy]; [lia|].
    assert (key p ≤ key y) by (eapply (Hinv pos); [lia|lia|done|done]).
    assert (key y ≤ key xi); [|lia].
    eapply (Hinv c); [lia|lia|done|]. by rewrite Hpar.
  - rewrite list_lookup_insert_ne in Hxi by done.
    destruct (decide (Nat.div2 (i - 1) = pos)) as [Heq|Hnp].
    + rewrite Heq, list_lookup_insert_eq in Hp by lia. injection Hp as ->.
      by eapply Hmin.
    + rewrite list_lookup_insert_ne in Hp by done.
      eapply (Hinv i); [lia|lia|done|done].
Qed.

Lemma siftup_loop_heap n (h : list A) pos h' pos' :
  length h ≤ pos + n → pos < length h → bubble_inv key h pos →
  heapq.siftup_loop lt n h (length h) pos = Ok (h', pos') →
  bubble_inv key h' pos' ∧ length h' ≤ 2 * pos' + 1.
Proof.
  revert h pos. induction n as [|n IH]; intros h pos Hn Hpos Hinv;
    cbn [heapq.siftup_loop].
  { intros [= <- <-]. split; [done|lia]. }
  case_bool_decide as Hc; [|intros [= <- <-]; split; [done|lia]].
  destruct (siftup_choice h pos Hc) as (c & -> & Hcl & Hpar & Hmin).
  passo.
  destruct (getitem_lt h c) as (a & Ha & ->); [lia|]. passo.
  rewrite setitem_lt by done. passo.
  intros Hl. rewrite <-(length_insert h pos a) in Hl.
  apply IH in Hl; [done | rewrite length_insert; lia.. |].
  apply bubble_step; eauto.
Qed.

Lemma siftup_heap (h : list A) h' :
  h ≠ [] → bubble_inv key h 0 →
  heapq._siftup lt h 0 = Ok h' → is_heap key h'.
Proof.
  intros Hne Hinv. unfold heapq._siftup.
  assert (0 < length h) as Hpos by (destruct h; [done|simpl; lia]).
  destruct (getitem_lt h 0 Hpos) as (x & Hx & ->). passo.
  destruct (siftup_loop_perm lt (length h) h 0 Hpos)
    as (h1 & pos1 & Hl & Hp1 & Hlen & _).
  rewrite Hl. passo.
  apply siftup_loop_heap in Hl as [Hb Hleaf]; [|lia|done|done].
  rewrite setitem_lt by lia. passo.
  apply siftdown_heap with (x := x).
  { apply list_lookup_insert_eq. lia. }
  split_and!.
  - intros i Hi Hne1 Hne2 xi p Hxi Hp.
    rewrite list_lookup_insert_ne in Hxi, Hp by done.
    eapply (Hb i); [lia|lia|done|done].
  - intros i c Hi Hpar Hc. apply lookup_lt_Some in Hc.
    rewrite length_insert in Hc. lia.
  - intros i c p Hi _ Hpar Hc. apply lookup_lt_Some in Hc.
    rewrite length_insert in Hc. lia.
Qed.

Lemma heappush_heap (h : list A) x h' :
  is_heap key h → heapq.heappush lt h x = Ok h' → is_heap key h'.
Proof.
  intros Hh. unfold heapq.heappush. rewrite length_app. simpl.
  replace (length h + 1 - 1) with (length h) by lia.
  apply siftdown_heap with (x := x).
  { by rewrite lookup_app_r, Nat.sub_diag. }
  split_and!.
  - intros i Hi Hne1 Hne2 xi p Hxi Hp.
    apply lookup_lt_Some in Hxi as Hlen. rewrite length_app in Hlen.
    simpl in Hlen. rewrite lookup_app_l in Hxi, Hp by lia.
    by eapply (Hh i).
  - intros i c Hi Hpar Hc. apply lookup_lt_Some in Hc.
    rewrite length_app in Hc. simpl in Hc. lia.
  - intros i c p Hi _ Hpar Hc. apply lookup_lt_Some in Hc.
    rewrite length_app in Hc. simpl in Hc. lia.
Qed.

Lemma heap_root_min (h : list A) r :
  is_heap key h → h !! 0 = Some r → ∀ i y, h !! i = Some y → key r ≤ key y.
Proof.
  intros Hh Hr i. induction (lt_wf i) as [i _ IH]. intros y Hy.
  destruct (decide (i = 0)) as [->|Hi]; [by simplify_eq|].
  destruct (lookup_lt_is_Some_2 h (Nat.div2 (i - 1))) as [p Hp].
  { apply lookup_lt_Some in Hy. lia. }
  assert (key r ≤ key p) by (apply (IH (Nat.div2 (i - 1))); [lia|done]).
  assert (key p ≤ key y); [|lia].
  eapply (Hh i); [lia|done|done].
Qed.

Lemma heappop_heap (h : list A) x h' :
  is_heap key h → heapq.heappop lt h = Ok (x, h') →
  is_heap key h' ∧ ∀ y, y ∈ h → key x ≤ key y.
Proof.
  intros Hh. unfold heapq.heappop.
  destruct (last h) as [e|] eqn:Hlast; [|done].
  apply last_Some in Hlast as [h0 ->]. rewrite removelast_snoc.
  case_bool_decide as H0.
  - destruct h0 as [|r t]; [done|]. cbn [getitem lookup list_lookup].
    passo. rewrite setitem_lt by (simpl; lia).
    cbn [mbind result_bind insert list_insert].
    destruct (heapq._siftup lt (e :: t) 0) as [h1|] eqn:Hs; [|done].
    passo. intros [= <- <-]. split.
    + apply siftup_heap in Hs; [done|done|].
      intros i Hi Hnr xi p Hxi Hp.
      apply lookup_lt_Some in Hxi as Hlen. simpl in Hlen.
      eapply (Hh i); [done| |].
      * rewrite lookup_app_l by (simpl; lia).
        destruct i; [lia|]. exact Hxi.
      * rewrite lookup_app_l by (simpl; lia).
        destruct (Nat.div2 (i - 1)) eqn:Hd; [lia|]. exact Hp.
    + intros y [i Hy]%list_elem_of_lookup.
      by eapply (heap_root_min ((r :: t) ++ [e])).
  - subst h0. intros [= <- <-]. split.
    + intros i Hi xi p Hxi. apply lookup_lt_Some in Hxi.
      simpl in Hxi. lia.
    + intros y ->%list_elem_of_singleton. done.
Qed.
End heapq_order.


(** * Strings *)

Lemma string_app_nil_l (s : string) : "" +:+ s = s.
Proof. reflexivity. Qed.

Lemma string_app_cons (a : ascii) (s t : string) :
  String a s +:+ t = String a (s +:+ t).
Proof. reflexivity. Qed.

Lemma string_app_nil_r (s : string) : s +:+ "" = s.
Proof. induction s; rewrite ?string_app_cons; by f_equal. Qed.

Lemma string_app_assoc (s t u : string) : (s +:+ t) +:+ u = s +:+ t +:+ u.
Proof. induction s; rewrite ?string_app_cons; by f_equal. Qed.

Lemma string_app_length (s t : string) :
  String.length (s +:+ t) = String.length s + String.length t.
Proof. induction s; rewrite ?string_app_cons; simpl; by f_equal. Qed.

Lemma string_length_0 (s : string) : String.length s = 0 → s = "".
Proof. by destruct s. Qed.

Lemma prefix_iff (s t : string) :
  String.prefix s t = true ↔ ∃ u, t = s +:+ u.
Proof.
  revert t. induction s as [|a s IH]; intros t; simpl.
  { destruct t; split; eauto. }
  destruct t as [|b t]; simpl.
  { split; [done|]. by intros [? ?]. }
  setoid_rewrite string_app_cons.
  destruct (ascii_dec a b) as [->|Hne].
  - rewrite IH. split; intros [u Hu]; exists u; by simplify_eq.
  - split; [done|]. intros [u Hu]. by simplify_eq.
Qed.

Lemma prefix_refl (s : string) : String.prefix s s = true.
Proof. apply prefix_iff. exists "". by rewrite string_app_nil_r. Qed.

(** Two paths that part ways are not prefixes of each other. *)
Lemma prefix_fork (p s t : string) (a b : ascii) :
  a ≠ b → String.prefix (p +:+ String a s) (p +:+ String b t) = false.
Proof.
  intros Hab. apply not_true_is_false. intros [u Hu]%prefix_iff.
  rewrite string_app_assoc in Hu. apply (inj _) in Hu.
  rewrite string_app_cons in Hu. by simplify_eq.
Qed.

(** * The frequency table *)

Lemma incrementar_fst fs c :
  (incrementar fs c).*1 = if decide (c ∈ fs.*1) then fs.*1 else fs.*1 ++ [c].
Proof.
  induction fs as [|[k v] fs IH]; [done|].
  cbn [incrementar]. destruct (decide (k = c)) as [->|Hne].
  - rewrite !fmap_cons. cbn [fst]. by rewrite decide_True by set_solver.
  - rewrite !fmap_cons, IH. cbn [fst]. destruct (decide (c ∈ fs.*1)).
    + by rewrite decide_True by set_solver.
    + by rewrite decide_False by set_solver.
Qed.

Lemma incrementar_NoDup fs c : NoDup fs.*1 → NoDup (incrementar fs c).*1.
Proof.
  intros Hnd. rewrite incrementar_fst. case_decide; [done|].
  apply NoDup_app. split_and!; [done|set_solver|apply NoDup_singleton].
Qed.

Lemma incrementar_elem fs c x :
  x ∈ (incrementar fs c).*1 ↔ x = c ∨ x ∈ fs.*1.
Proof. rewrite incrementar_fst. case_decide; set_solver. Qed.

Lemma contar_desde_NoDup fs texto :
  NoDup fs.*1 → NoDup (contar_desde fs texto).*1.
Proof.
  revert fs. induction texto as [|c t IH]; intros fs Hnd; simpl; [done|].
  by apply IH, incrementar_NoDup.
Qed.

Lemma contar_desde_elem fs texto x :
  x ∈ (contar_desde fs texto).*1 ↔
  x ∈ fs.*1 ∨ x ∈ String.list_ascii_of_string texto.
Proof.
  revert fs. induction texto as [|c t IH]; intros fs; simpl; [set_solver|].
  rewrite IH, incrementar_elem. set_solver.
Qed.

Lemma contar_NoDup texto : NoDup (contar texto).*1.
Proof. apply contar_desde_NoDup. constructor. Qed.

Lemma contar_elem texto x :
  x ∈ (contar texto).*1 ↔ x ∈ String.list_ascii_of_string texto.
Proof. unfold contar. rewrite contar_desde_elem. set_solver. Qed.

Lemma contar_nonempty texto : texto ≠ "" → contar texto ≠ [].
Proof.
  destruct texto as [|c t]; [done|]. intros _ Hnil.
  assert (c ∈ (contar (String c t)).*1) as Hc by (apply contar_elem; set_solver).
  rewrite Hnil in Hc. set_solver.
Qed.

(** A text of one repeated character has a one-entry table. *)
Lemma contar_desde_um c n texto :
  (∀ x, x ∈ String.list_ascii_of_string texto → x = c) →
  contar_desde [(c, n)] texto = [(c, n + String.length texto)].
Proof.
  revert n. induction texto as [|a t IH]; intros n Hall; simpl.
  { by rewrite Nat.add_0_r. }
  assert (a = c) as -> by (apply Hall; set_solver).
  rewrite decide_True by done. rewrite IH by set_solver. do 2 f_equal. lia.
Qed.

(** * Trees *)

(** Induction over nodes: the children of a node come first. *)
Lemma NoHuffman_ind' (P : NoHuffman → Prop) :
  (∀ c f l r,
     (∀ e, l = Some e → P e) → (∀ d, r = Some d → P d) →
     P (mkNoHuffman c f l r)) →
  ∀ no, P no.
Proof.
  intros H. fix IH 1. intros [c f l r]. apply H.
  - destruct l as [e|]; intros e' [= <-]. apply IH.
  - destruct r as [d|]; intros d' [= <-]. apply IH.
Qed.

Lemma folhas_pares_prefixo no p :
  (λ x, x.1) <$> folhas no p = pares no.
Proof.
  unfold pares. generalize "". revert p.
  induction no as [c f l r IHl IHr] using NoHuffman_ind'.
  intros p q. destruct c as [a|]; [done|]. cbn [folhas].
  rewrite !fmap_app. f_equal.
  - destruct l as [e|]; [|done]. by apply IHl.
  - destruct r as [d|]; [|done]. by apply IHr.
Qed.

Lemma pares_folha c f : pares (mkNoHuffman (Some c) f None None) = [(c, f)].
Proof. done. Qed.

Lemma pares_interna f l r :
  pares (mkNoHuffman None f (Some l) (Some r)) = pares l ++ pares r.
Proof.
  unfold pares at 1. cbn [folhas]. rewrite fmap_app.
  by rewrite !folhas_pares_prefixo.
Qed.

(** In a tree of the program's shape the frequency of the root is the sum
    of the frequencies of the leaves. *)
Lemma arvore_ok_freq no :
  arvore_ok no → freq no = sum_list_with snd (pares no).
Proof.
  induction 1 as [c f|l r _ IHl _ IHr]; [simpl; lia|].
  rewrite pares_interna, sum_list_with_app. simpl. lia.
Qed.

Lemma arvore_ok_nos no :
  arvore_ok no → ∀ n, n ∈ nos no →
  match char n with
  | Some _ => left n = None ∧ right n = None
  | None => ∃ l r, left n = Some l ∧ right n = Some r ∧
                   freq n = freq l + freq r
  end.
Proof.
  induction 1 as [c f|l r _ IHl _ IHr]; intros n Hn; simpl in Hn.
  - apply list_elem_of_singleton in Hn as ->. done.
  - rewrite elem_of_cons, elem_of_app in Hn.
    destruct Hn as [->|[Hn|Hn]]; [simpl; eauto|by apply IHl|by apply IHr].
Qed.

(** ** [gerar_codigos] writes the path of every leaf *)

Lemma gerar_codigos_no_lookup no :
  arvore_ok no → ∀ p m k,
  gerar_codigos_no no p m !! k =
    match k with
    | Some c =>
        match list_find (λ x, x.1.1 = c) (reverse (folhas no p)) with
        | Some (_, x) => Some x.2
        | None => m !! k
        end
    | None => m !! k
    end.
Proof.
  induction 1 as [c f|l r _ IHl _ IHr]; intros p m k.
  - cbn [gerar_codigos_no folhas]. destruct k as [c'|].
    + simpl. case_decide as Hc; simpl.
      * subst. by rewrite lookup_insert_eq.
      * rewrite lookup_insert_ne; [done|congruence].
    + by rewrite lookup_insert_ne.
  - cbn [gerar_codigos_no folhas]. rewrite IHr, IHl.
    destruct k as [c|]; [|done].
    rewrite reverse_app.
    destruct (list_find _ (reverse (folhas r _))) as [[i x]|] eqn:Hr.
    + erewrite list_find_app_l; [|done]. done.
    + rewrite list_find_app_r by done.
      by destruct (list_find _ (reverse (folhas l _))) as [[j y]|].
Qed.

Lemma NoDup_fmap_eq {A B} (f : A → B) (l : list A) x y :
  NoDup (f <$> l) → x ∈ l → y ∈ l → f x = f y → x = y.
Proof.
  induction l as [|a l IH]; [by intros _ ?%elem_of_nil|].
  rewrite fmap_cons, NoDup_cons, !elem_of_cons.
  intros [Ha Hnd] [->|Hx] [->|Hy] Hf; [done| | |by apply IH].
  - destruct Ha. rewrite Hf. by apply list_elem_of_fmap_2.
  - destruct Ha. rewrite <-Hf. by apply list_elem_of_fmap_2.
Qed.

Lemma folhas_simbolos no p : (λ x, x.1.1) <$> folhas no p = (pares no).*1.
Proof. by rewrite <-(folhas_pares_prefixo no p), <-list_fmap_compose. Qed.

Lemma gerar_codigos_no_Some no p m c f v :
  arvore_ok no → NoDup (pares no).*1 → (c, f, v) ∈ folhas no p →
  gerar_codigos_no no p m !! Some c = Some v.
Proof.
  intros Hok Hnd Hin. rewrite gerar_codigos_no_lookup by done.
  destruct (list_find _ _) as [[i x]|] eqn:Hfind.
  - apply list_find_Some in Hfind as (Hx%list_elem_of_lookup_2 & Hc & _).
    rewrite elem_of_reverse in Hx.
    rewrite <-(folhas_simbolos no p) in Hnd.
    by rewrite (NoDup_fmap_eq _ _ x (c, f, v) Hnd Hx Hin Hc).
  - apply list_find_None in Hfind. rewrite Forall_forall in Hfind.
    destruct (Hfind (c, f, v)); [|done]. by rewrite elem_of_reverse.
Qed.

Lemma gerar_codigos_no_inv no p k v :
  arvore_ok no → gerar_codigos_no no p ∅ !! k = Some v →
  ∃ c f, k = Some c ∧ (c, f, v) ∈ folhas no p.
Proof.
  intros Hok. rewrite gerar_codigos_no_lookup by done.
  destruct k as [c|]; [|done].
  destruct (list_find _ _) as [[i [[c' f] v']]|] eqn:Hfind; [|done].
  apply list_find_Some in Hfind as (Hx%list_elem_of_lookup_2 & Hc & _).
  rewrite elem_of_reverse in Hx. simpl in Hc. subst c'.
  intros [= <-]. eauto.
Qed.

(** ** Paths *)

Lemma folhas_prefixo no p x :
  x ∈ folhas no p → ∃ s, x.2 = p +:+ s.
Proof.
  revert p. induction no as [c f l r IHl IHr] using NoHuffman_ind'.
  intros p. cbn [folhas]. destruct c as [a|].
  { intros ->%list_elem_of_singleton. exists "". by rewrite string_app_nil_r. }
  rewrite elem_of_app. intros [Hx|Hx].
  - destruct l as [e|]; [|by apply elem_of_nil in Hx].
    destruct (IHl e eq_refl _ Hx) as [s ->].
    eexists. by rewrite string_app_assoc.
  - destruct r as [d|]; [|by apply elem_of_nil in Hx].
    destruct (IHr d eq_refl _ Hx) as [s ->].
    eexists. by rewrite string_app_assoc.
Qed.

Lemma folhas_prefix_free no :
  arvore_ok no → ∀ p x y, x ∈ folhas no p → y ∈ folhas no p →
  x.1.1 ≠ y.1.1 → String.prefix x.2 y.2 = false.
Proof.
  induction 1 as [c f|l r _ IHl _ IHr]; intros p x y; cbn [folhas].
  { intros ->%list_elem_of_singleton ->%list_elem_of_singleton. done. }
  rewrite !elem_of_app. intros [Hx|Hx] [Hy|Hy] Hne; eauto.
  - apply folhas_prefixo in Hx as [s ->]. apply folhas_prefixo in Hy as [t ->].
    rewrite !string_app_assoc. by apply prefix_fork.
  - apply folhas_prefixo in Hx as [s ->]. apply folhas_prefixo in Hy as [t ->].
    rewrite !string_app_assoc. by apply prefix_fork.
Qed.

Lemma binario_app s t : binario (s +:+ t) = binario s && binario t.
Proof.
  induction s as [|a s IH]; [done|].
  rewrite string_app_cons. simpl. rewrite IH. by rewrite andb_assoc.
Qed.

Lemma folhas_binario no p x :
  binario p = true → x ∈ folhas no p → binario x.2 = true.
Proof.
  revert p. induction no as [c f l r IHl IHr] using NoHuffman_ind'.
  intros p Hp. cbn [folhas]. destruct c as [a|].
  { by intros ->%list_elem_of_singleton. }
  rewrite elem_of_app. intros [Hx|Hx].
  - destruct l as [e|]; [|by apply elem_of_nil in Hx].
    apply (IHl e eq_refl (p +:+ "0")); [|done]. by rewrite binario_app, Hp.
  - destruct r as [d|]; [|by apply elem_of_nil in Hx].
    apply (IHr d eq_refl (p +:+ "1")); [|done]. by rewrite binario_app, Hp.
Qed.

(** Below a node without a character every path has at least one digit. *)
Lemma folhas_interna_length f l r p x :
  x ∈ folhas (mkNoHuffman None f l r) p →
  String.length p < String.length x.2.
Proof.
  cbn [folhas]. rewrite elem_of_app. intros [Hx|Hx].
  - destruct l as [e|]; [|by apply elem_of_nil in Hx].
    apply folhas_prefixo in Hx as [s ->].
    rewrite !string_app_length. simpl. lia.
  - destruct r as [d|]; [|by apply elem_of_nil in Hx].
    apply folhas_prefixo in Hx as [s ->].
    rewrite !string_app_length. simpl. lia.
Qed.

(** The cost of a tree is the cost of its paths. *)
Lemma custo_arvore_folhas no :
  arvore_ok no → ∀ p,
  sum_list_with (λ x, x.1.2 * String.length x.2) (folhas no p) =
  custo_arvore no + freq no * String.length p.
Proof.
  induction 1 as [c f|l r _ IHl _ IHr]; intros p; cbn [folhas custo_arvore].
  { simpl. lia. }
  rewrite sum_list_with_app, IHl, IHr, !string_app_length. simpl. lia.
Qed.


(** * The frequency table counts occurrences *)

Lemma valor_incrementar fs c x :
  valor (incrementar fs c) x = valor fs x + (if decide (c = x) then 1 else 0).
Proof.
  unfold valor. induction fs as [|[k v] fs IH]; simpl.
  { repeat case_decide; simplify_eq; lia. }
  destruct (decide (k = c)) as [->|Hne]; simpl.
  - repeat case_decide; simplify_eq; lia.
  - rewrite IH. repeat case_decide; simplify_eq; lia.
Qed.

Lemma valor_contar_desde fs texto x :
  valor (contar_desde fs texto) x = valor fs x + ocorrencias x texto.
Proof.
  revert fs. induction texto as [|a t IH]; intros fs; simpl; [lia|].
  rewrite IH, valor_incrementar. lia.
Qed.

Lemma valor_elem fs c n : NoDup fs.*1 → (c, n) ∈ fs → valor fs c = n.
Proof.
  unfold valor. induction fs as [|[k v] fs IH]; [by intros _ ?%elem_of_nil|].
  rewrite fmap_cons, NoDup_cons. intros [Hk Hnd] [Heq|Hin]%elem_of_cons.
  - simplify_eq. simpl. rewrite decide_True by done.
    assert (sum_list_with (λ p : ascii * nat,
      if decide (p.1 = k) then p.2 else 0) fs = 0) as ->; [|lia].
    clear -Hk. induction fs as [|[k' v'] fs IH]; [done|].
    rewrite fmap_cons in Hk. apply not_elem_of_cons in Hk as [Hk' Hk].
    simpl. rewrite decide_False by done. by rewrite IH.
  - assert (k ≠ c).
    { intros ->. apply Hk. by apply (list_elem_of_fmap_2 fst) in Hin. }
    simpl. rewrite decide_False by done. by rewrite IH.
Qed.

(** Every entry of the table holds the number of occurrences of its
    character. *)
Lemma contar_ocorrencias texto c n :
  (c, n) ∈ contar texto → n = ocorrencias c texto.
Proof.
  intros Hin. rewrite <-(valor_elem _ _ _ (contar_NoDup texto) Hin).
  unfold contar. by rewrite valor_contar_desde.
Qed.


(** * The heap of [construir_arvore] *)

Lemma NoHuffman_lt_key a b : NoHuffman_lt a b = bool_decide (freq a < freq b).
Proof. done. Qed.

Lemma is_heap_nil {A} (key : A → nat) : is_heap key [].
Proof. intros i _ x p Hx. done. Qed.

Lemma empilhar_spec itens heap :
  is_heap freq heap →
  ∃ h', empilhar heap itens = Ok h' ∧ h' ≡ₚ (folha <$> itens) ++ heap ∧
        is_heap freq h'.
Proof.
  revert heap. induction itens as [|[c f] itens IH]; intros heap Hh.
  { exists heap. done. }
  cbn [empilhar].
  destruct (heappush_perm NoHuffman_lt heap (NoHuffman_init (Some c) f))
    as (h1 & Hpush & Hperm).
  rewrite Hpush. passo.
  apply (heappush_heap _ _ NoHuffman_lt_key) in Hpush; [|done].
  destruct (IH h1 Hpush) as (h' & -> & Hperm' & Hh').
  exists h'. split_and!; [done| |done].
  rewrite Hperm', Hperm, fmap_cons. symmetry. apply Permutation_middle.
Qed.

(** One turn of the [while] loop: the two nodes of least frequency leave
    the heap and their parent enters it. *)
Lemma fundir_passo n heap :
  1 < length heap → is_heap freq heap →
  ∃ no1 no2 resto heap',
    fundir (S n) heap = fundir n heap' ∧
    heap ≡ₚ no1 :: no2 :: resto ∧
    heap' ≡ₚ mkNoHuffman None (freq no1 + freq no2) (Some no1) (Some no2)
             :: resto ∧
    is_heap freq heap' ∧
    (∀ y, y ∈ no2 :: resto → freq no1 ≤ freq y) ∧
    (∀ y, y ∈ resto → freq no2 ≤ freq y).
Proof.
  intros Hlen Hh. cbn [fundir]. rewrite bool_decide_eq_true_2 by done.
  destruct (heappop_perm NoHuffman_lt heap) as (no1 & h1 & Hpop1 & Hp1).
  { intros ->. simpl in Hlen. lia. }
  rewrite Hpop1. passo.
  apply (heappop_heap _ _ NoHuffman_lt_key) in Hpop1 as [Hh1 Hmin1]; [|done].
  destruct (heappop_perm NoHuffman_lt h1) as (no2 & h2 & Hpop2 & Hp2).
  { intros ->. apply Permutation_length in Hp1. simpl in Hp1. lia. }
  rewrite Hpop2. passo.
  apply (heappop_heap _ _ NoHuffman_lt_key) in Hpop2 as [Hh2 Hmin2]; [|done].
  destruct (heappush_perm NoHuffman_lt h2
    (mkNoHuffman None (freq no1 + freq no2) (Some no1) (Some no2)))
    as (h3 & Hpush & Hp3).
  change (set_right (set_left (NoHuffman_init None (freq no1 + freq no2))
            (Some no1)) (Some no2))
    with (mkNoHuffman None (freq no1 + freq no2) (Some no1) (Some no2)).
  rewrite Hpush. passo.
  apply (heappush_heap _ _ NoHuffman_lt_key) in Hpush; [|done].
  exists no1, no2, h2, h3. split_and!; [done| |done|done| |].
  - by rewrite Hp1, Hp2.
  - intros y Hy. apply Hmin1. rewrite Hp1, Hp2. set_solver.
  - intros y Hy. apply Hmin2. rewrite Hp2. set_solver.
Qed.

(** The bound of [fundir] is never what ends the loop: any bound that is
    at least the length of the heap gives the same result. *)
Lemma fundir_fuel n m heap :
  length heap ≤ n → length heap ≤ m → fundir n heap = fundir m heap.
Proof.
  revert m heap. induction n as [|n IH]; intros [|m] heap Hn Hm;
    cbn [fundir]; try done.
  - by rewrite bool_decide_eq_false_2 by lia.
  - by rewrite bool_decide_eq_false_2 by lia.
  - case_bool_decide as Hlen; [|done].
    destruct (heappop_perm NoHuffman_lt heap) as (no1 & h1 & -> & Hp1).
    { intros ->. simpl in Hlen. lia. }
    passo.
    destruct (heappop_perm NoHuffman_lt h1) as (no2 & h2 & -> & Hp2).
    { intros ->. apply Permutation_length in Hp1. simpl in Hp1. lia. }
    passo.
    destruct (heappush_perm NoHuffman_lt h2 (set_right (set_left
      (NoHuffman_init None (freq no1 + freq no2)) (Some no1)) (Some no2)))
      as (h3 & -> & Hp3).
    passo.
    apply Permutation_length in Hp1, Hp2, Hp3. simpl in *. apply IH; lia.
Qed.

(** Induction over the turns of the loop: what holds of a one-node heap and
    its node, and goes from the heap after a turn to the heap before it,
    holds of every heap and the node the loop ends with. *)
Lemma fundir_ind (P : list NoHuffman → NoHuffman → Prop) :
  (∀ raiz, P [raiz] raiz) →
  (∀ heap heap' no1 no2 resto raiz,
     heap ≡ₚ no1 :: no2 :: resto →
     heap' ≡ₚ mkNoHuffman None (freq no1 + freq no2) (Some no1) (Some no2)
              :: resto →
     (∀ y, y ∈ no2 :: resto → freq no1 ≤ freq y) →
     (∀ y, y ∈ resto → freq no2 ≤ freq y) →
     P heap' raiz → P heap raiz) →
  ∀ n heap, length heap ≤ n → heap ≠ [] → is_heap freq heap →
  ∃ raiz, fundir n heap = Ok [raiz] ∧ P heap raiz.
Proof.
  intros Hbase Hstep n. induction n as [|n IH]; intros heap Hn Hne Hh.
  { destruct heap; [done|simpl in Hn; lia]. }
  destruct (decide (1 < length heap)) as [Hlen|Hlen].
  - destruct (fundir_passo n heap Hlen Hh)
      as (no1 & no2 & resto & heap' & -> & Hp & Hp' & Hh' & Hm1 & Hm2).
    destruct (IH heap') as (raiz & -> & HP); [| |done|].
    + apply Permutation_length in Hp, Hp'. simpl in *. lia.
    + intros ->. by apply Permutation_nil_cons in Hp'.
    + exists raiz. split; [done|]. by eapply Hstep.
  - destruct heap as [|raiz [|? ?]]; [done| |simpl in Hlen; lia].
    exists raiz. split; [|done]. cbn [fundir].
    by rewrite bool_decide_eq_false_2 by done.
Qed.

(** The tree the loop ends with has the program's shape and the leaves of
    the heap it started from. *)
Lemma fundir_arvore n heap :
  length heap ≤ n → heap ≠ [] → is_heap freq heap → Forall arvore_ok heap →
  ∃ raiz, fundir n heap = Ok [raiz] ∧ arvore_ok raiz ∧
          pares raiz ≡ₚ heap ≫= pares.
Proof.
  intros Hn Hne Hh Hok.
  destruct (fundir_ind (λ heap raiz, Forall arvore_ok heap →
    arvore_ok raiz ∧ pares raiz ≡ₚ heap ≫= pares))
    with (n := n) (heap := heap) as (raiz & Hf & HP); [| |done..|by eauto].
  - intros raiz Hr. split.
    + by inversion Hr.
    + simpl. by rewrite app_nil_r.
  - clear. intros heap heap' no1 no2 resto raiz Hp Hp' _ _ IH Hok.
    rewrite Hp in Hok. apply Forall_cons in Hok as [Hok1 Hok].
    apply Forall_cons in Hok as [Hok2 Hok].
    destruct IH as (Hr & Hpares).
    { rewrite Hp'. constructor; [by constructor|done]. }
    split; [done|].
    rewrite Hpares, Hp', Hp. simpl. rewrite pares_interna.
    by rewrite (assoc_L (++)).
Qed.

Lemma arvore_ok_pares_length no :
  arvore_ok no →
  match char no with
  | Some _ => length (pares no) = 1
  | None => 1 < length (pares no)
  end.
Proof.
  induction 1 as [c f|l r Hl IHl Hr IHr]; [done|].
  rewrite pares_interna, length_app. simpl.
  destruct (char l), (char r); lia.
Qed.


(** * Kraft sums *)

Lemma ksum_cons k l ls : ksum k (l :: ls) = 2 ^ (k - l) + ksum k ls.
Proof. done. Qed.

Lemma ksum_scale k d ls :
  (∀ l, l ∈ ls → l ≤ k) → ksum (k + d) ls = 2 ^ d * ksum k ls.
Proof.
  induction ls as [|l ls IH]; intros Hle; [simpl; lia|].
  rewrite !ksum_cons, IH by set_solver.
  assert (l ≤ k) by set_solver.
  replace (k + d - l) with (d + (k - l)) by lia.
  rewrite Nat.pow_add_r. lia.
Qed.

Lemma max_list_le (ls : list nat) l : l ∈ ls → l ≤ max_list ls.
Proof. apply max_list_elem_of_le. Qed.

Lemma kraft_iff k ls :
  (∀ l, l ∈ ls → l ≤ k) → kraft ls ↔ ksum k ls ≤ 2 ^ k.
Proof.
  intros Hle. unfold kraft.
  assert (max_list ls ≤ k) as Hmax.
  { clear -Hle. induction ls as [|l ls IH]; simpl; [lia|].
    assert (l ≤ k) by set_solver. assert (max_list ls ≤ k) by set_solver. lia. }
  replace k with (max_list ls + (k - max_list ls)) at 1 2 by lia.
  rewrite ksum_scale by apply max_list_le. rewrite Nat.pow_add_r.
  assert (0 < 2 ^ (k - max_list ls)) by (apply Nat.neq_0_lt_0, Nat.pow_nonzero; lia).
  nia.
Qed.

#[global] Instance ksum_perm k : Proper ((≡ₚ) ==> (=)) (ksum k).
Proof. intros ls1 ls2 Hp. unfold ksum. by rewrite Hp. Qed.

#[global] Instance kraft_perm : Proper ((≡ₚ) ==> iff) kraft.
Proof.
  intros ls1 ls2 Hp. unfold kraft.
  assert (max_list ls1 = max_list ls2) as ->
    by (by apply max_list_with_Permutation_proper).
  by rewrite (ksum_perm _ _ _ Hp).
Qed.

#[global] Instance custo_de_perm : Proper ((≡ₚ) ==> (=)) custo_de.
Proof. intros ls1 ls2 Hp. unfold custo_de. by rewrite Hp. Qed.

Lemma custo_de_cons w l ls : custo_de ((w, l) :: ls) = w * l + custo_de ls.
Proof. done. Qed.

(** * The exchange argument *)

(** An entry of given weight can be brought to the front. *)
Lemma peso_na_frente (ls : list (nat * nat)) a ws :
  ls.*1 ≡ₚ a :: ws → ∃ l resto, ls ≡ₚ (a, l) :: resto ∧ resto.*1 ≡ₚ ws.
Proof.
  intros Hp.
  assert (a ∈ ls.*1) as ([a' l] & ? & Hin)%list_elem_of_fmap
    by (rewrite Hp; set_solver).
  simplify_eq/=. apply elem_of_Permutation in Hin as [resto Hr].
  exists l, resto. split; [done|].
  rewrite Hr, fmap_cons in Hp. by apply Permutation_cons_inv in Hp.
Qed.

(** The least weight can take the greatest length at no cost. *)
Lemma maior_primeiro a la (resto : list (nat * nat)) :
  (∀ w, w ∈ resto.*1 → a ≤ w) →
  ∃ la' resto', resto'.*1 = resto.*1 ∧
    la' :: resto'.*2 ≡ₚ la :: resto.*2 ∧
    (∀ l, l ∈ resto'.*2 → l ≤ la') ∧
    a * la' + custo_de resto' ≤ a * la + custo_de resto.
Proof.
  induction resto as [|[w l] resto IH]; intros Hmin.
  { exists la, []. split_and!; [done..|set_solver|done]. }
  destruct IH as (la1 & r1 & Hw & Hl & Hmax & Hc); [set_solver|].
  assert (a ≤ w) by set_solver.
  destruct (decide (l ≤ la1)) as [Hle|Hgt].
  - exists la1, ((w, l) :: r1). rewrite !fmap_cons, !custo_de_cons. simpl.
    split_and!; [by f_equal| |set_solver|lia].
    by rewrite (perm_swap l la1), Hl, (perm_swap la l).
  - exists l, ((w, la1) :: r1). rewrite !fmap_cons, !custo_de_cons. simpl.
    split_and!; [by f_equal| | |nia].
    + by rewrite Hl, (perm_swap la l).
    + intros l' [->|Hl']%elem_of_cons; [lia|]. apply Hmax in Hl'. lia.
Qed.

Lemma troca (ls : list (nat * nat)) a b ws :
  ls.*1 ≡ₚ a :: b :: ws →
  (∀ w, w ∈ b :: ws → a ≤ w) → (∀ w, w ∈ ws → b ≤ w) →
  kraft ls.*2 →
  ∃ ls', ls'.*1 ≡ₚ (a + b) :: ws ∧ kraft ls'.*2 ∧
         custo_de ls' + a + b ≤ custo_de ls.
Proof.
  intros Hp Ha Hb Hk.
  destruct (peso_na_frente ls a (b :: ws) Hp) as (la & r0 & Hls & Hr0).
  destruct (peso_na_frente r0 b ws Hr0) as (lb & r & Hr0' & Hr).
  rewrite Hr0' in Hls. clear Hp Hr0 Hr0' r0.
  rewrite Hls in Hk.
  assert (custo_de ls = custo_de ((a, la) :: (b, lb) :: r)) as ->
    by (by rewrite Hls).
  clear Hls ls.
  (* the least weight takes the greatest length *)
  destruct (maior_primeiro a la ((b, lb) :: r)) as (la1 & r1 & Hw1 & Hl1 & Hmax1 & Hc1).
  { intros w Hw. apply Ha. by rewrite fmap_cons, Hr in Hw. }
  destruct r1 as [|[b' lb1] r1]; [done|].
  rewrite !fmap_cons in Hw1. simpl in Hw1. injection Hw1 as -> Hw1.
  (* the second least takes the second greatest *)
  destruct (maior_primeiro b lb1 r1) as (lb2 & r2 & Hw2 & Hl2 & Hmax2 & Hc2).
  { intros w Hw. apply Hb. by rewrite Hw1, Hr in Hw. }
  assert (lb2 ≤ la1) as Hle.
  { apply Hmax1. rewrite fmap_cons. simpl. rewrite <-Hl2. set_solver. }
  assert (kraft (la1 :: lb2 :: r2.*2)) as Hk2.
  { rewrite Hl2. rewrite !fmap_cons in Hl1. simpl in Hl1. by rewrite Hl1. }
  rewrite !custo_de_cons in *. simpl in *.
  (* both take the second greatest length [lb2] *)
  apply (kraft_iff la1) in Hk2.
  2:{ intros l [->|[->|Hl]%elem_of_cons]%elem_of_cons; [lia..|].
      apply Hmax2 in Hl. lia. }
  rewrite ksum_cons, Nat.sub_diag in Hk2.
  replace la1 with (lb2 + (la1 - lb2)) in Hk2 at 1 2 by lia.
  rewrite ksum_scale, Nat.pow_add_r in Hk2.
  2:{ intros l [->|Hl]%elem_of_cons; [lia|]. by apply Hmax2. }
  rewrite ksum_cons, Nat.sub_diag in Hk2. simpl in Hk2.
  assert (0 < 2 ^ (la1 - lb2)) by (apply Nat.neq_0_lt_0, Nat.pow_nonzero; lia).
  assert (2 + ksum lb2 r2.*2 ≤ 2 ^ lb2) as Hk3 by nia.
  assert (0 < lb2) as Hpos.
  { destruct lb2; [simpl in Hk3; lia|lia]. }
  exists ((a + b, lb2 - 1) :: r2). rewrite !fmap_cons, custo_de_cons. simpl.
  split_and!.
  - by rewrite Hw2, Hw1, Hr.
  - apply (kraft_iff lb2).
    { intros l [->|Hl]%elem_of_cons; [lia|]. by apply Hmax2. }
    rewrite ksum_cons. replace (lb2 - (lb2 - 1)) with 1 by lia. simpl. lia.
  - nia.
Qed.

(** * Kraft's inequality for binary prefix codes *)

Lemma livre_vazio cs : livre_de_prefixos cs → "" ∈ cs → cs = [""].
Proof.
  destruct cs as [|c resto]; [by intros _ ?%elem_of_nil|].
  intros [Hc _] [<-|Hin]%elem_of_cons.
  - destruct resto as [|v resto]; [done|].
    destruct (Hc v) as [Hp _]; [set_solver|]. destruct v; simpl in Hp; done.
  - destruct (Hc "" Hin) as [_ Hp]. destruct c; simpl in Hp; done.
Qed.

Lemma elem_of_restos b cs t : t ∈ restos b cs ↔ String b t ∈ cs.
Proof.
  unfold restos. rewrite list_elem_of_omap. split.
  - intros ([|x u] & Hin & Heq); [done|]. case_decide; by simplify_eq.
  - intros Hin. exists (String b t). split; [done|]. by rewrite decide_True.
Qed.

Lemma prefix_cons b s t :
  String.prefix (String b s) (String b t) = String.prefix s t.
Proof. simpl. by destruct (ascii_dec b b). Qed.

Lemma livre_restos b cs : livre_de_prefixos cs → livre_de_prefixos (restos b cs).
Proof.
  induction cs as [|c cs IH]; [done|]. intros [Hc Hcs].
  unfold restos. cbn [omap list_omap]. fold (restos b cs).
  destruct c as [|x t]; [by apply IH|].
  case_decide as Hx; [|by apply IH]. subst x. split; [|by apply IH].
  intros v Hv%elem_of_restos. destruct (Hc _ Hv) as [H1 H2].
  by rewrite !prefix_cons in H1, H2.
Qed.

Lemma ksum_restos k cs :
  "" ∉ cs → (∀ c, c ∈ cs → binario c = true) →
  ksum (S k) (String.length <$> cs) =
  ksum k (String.length <$> restos "0" cs) +
  ksum k (String.length <$> restos "1" cs).
Proof.
  induction cs as [|c cs IH]; intros Hne Hbin; [done|].
  assert (binario c = true) as Hc by set_solver.
  rewrite fmap_cons, ksum_cons, IH by set_solver.
  unfold restos. cbn [omap list_omap]. fold (restos "0" cs) (restos "1" cs).
  destruct c as [|x t]; [set_solver|]. simpl in Hc.
  apply andb_prop in Hc as [Hx _]. apply orb_prop in Hx.
  destruct Hx as [->%bool_decide_eq_true| ->%bool_decide_eq_true].
  - rewrite decide_True, decide_False by done.
    rewrite fmap_cons, ksum_cons. simpl. lia.
  - rewrite decide_False, decide_True by done.
    rewrite fmap_cons, ksum_cons. simpl. lia.
Qed.

Lemma kraft_prefixos k cs :
  (∀ c, c ∈ cs → String.length c ≤ k) →
  (∀ c, c ∈ cs → binario c = true) →
  livre_de_prefixos cs →
  ksum k (String.length <$> cs) ≤ 2 ^ k.
Proof.
  revert cs. induction k as [|k IH]; intros cs Hlen Hbin Hpf.
  - destruct cs as [|c cs]; [simpl; lia|].
    assert (String.length c ≤ 0) by (apply Hlen; set_solver).
    assert (c = "") as -> by (apply string_length_0; lia).
    rewrite (livre_vazio _ Hpf) by set_solver. simpl. lia.
  - destruct (decide ("" ∈ cs)) as [Hin|Hnin].
    { rewrite (livre_vazio _ Hpf Hin). rewrite fmap_cons, ksum_cons.
      simpl. lia. }
    rewrite ksum_restos by done.
    assert (∀ b, ksum k (String.length <$> restos b cs) ≤ 2 ^ k) as Hb.
    { intros b. apply IH.
      - intros t Ht%elem_of_restos. apply Hlen in Ht. simpl in Ht. lia.
      - intros t Ht%elem_of_restos. apply Hbin in Ht. simpl in Ht.
        by apply andb_prop in Ht as [_ ?].
      - by apply livre_restos. }
    specialize (Hb "0"%char) as H0. specialize (Hb "1"%char) as H1.
    rewrite Nat.pow_succ_r'. lia.
Qed.

Lemma kraft_livre cs :
  (∀ c, c ∈ cs → binario c = true) → livre_de_prefixos cs →
  kraft (String.length <$> cs).
Proof.
  intros Hbin Hpf. unfold kraft. apply kraft_prefixos; [|done..].
  intros c Hc. apply max_list_le. by apply list_elem_of_fmap_2.
Qed.


(** * The result of [construir_arvore] *)

(** The tree the loop ends with costs no more than any assignment of code
    lengths that satisfies Kraft's inequality. *)
Lemma fundir_otimo n heap :
  length heap ≤ n → heap ≠ [] → is_heap freq heap →
  ∃ raiz, fundir n heap = Ok [raiz] ∧
    ∀ ls, ls.*1 ≡ₚ freq <$> heap → kraft ls.*2 →
      custo_arvore raiz ≤ sum_list_with custo_arvore heap + custo_de ls.
Proof.
  revert n heap.
  apply (fundir_ind (λ heap raiz, ∀ ls, ls.*1 ≡ₚ freq <$> heap →
    kraft ls.*2 →
    custo_arvore raiz ≤ sum_list_with custo_arvore heap + custo_de ls)).
  - intros raiz ls _ _. simpl. lia.
  - intros heap heap' no1 no2 resto raiz Hp Hp' Hm1 Hm2 IH ls Hls Hk.
    destruct (troca ls (freq no1) (freq no2) (freq <$> resto))
      as (ls' & Hls' & Hk' & Hc); [| | |done|].
    + by rewrite Hls, Hp.
    + intros w Hw. rewrite <-fmap_cons in Hw.
      apply list_elem_of_fmap in Hw as (y & -> & Hy). by apply Hm1.
    + intros w (y & -> & Hy)%list_elem_of_fmap. by apply Hm2.
    + specialize (IH ls'). rewrite Hp' in IH. rewrite Hp.
      simpl in IH |- *. specialize (IH Hls' Hk'). lia.
Qed.

Lemma heappop_um (no : NoHuffman) :
  heapq.heappop NoHuffman_lt [no] = Ok (no, []).
Proof. done. Qed.

Lemma folha_ok p : arvore_ok (folha p).
Proof. destruct p. constructor. Qed.

Lemma bind_pares_folha itens : (folha <$> itens) ≫= pares = itens.
Proof.
  induction itens as [|[c f] itens IH]; [done|].
  rewrite fmap_cons, bind_cons, IH. done.
Qed.

(** What [construir_arvore] returns for a non-empty text. *)
Lemma construir_arvore_ok texto :
  texto ≠ "" →
  ∃ raiz codigos,
    construir_arvore texto = Ok (Some raiz, codigos) ∧
    arvore_ok raiz ∧ pares raiz ≡ₚ contar texto ∧
    ((∃ c f, contar texto = [(c, f)] ∧ raiz = folha (c, f) ∧
             codigos = {[Some c := "0"]}) ∨
     (1 < length (contar texto) ∧
      codigos = gerar_codigos (Some raiz) "" ∅ ∧
      ∀ ls, ls.*1 ≡ₚ (contar texto).*2 → kraft ls.*2 →
        custo_arvore raiz ≤ custo_de ls)).
Proof.
  intros Hne. unfold construir_arvore.
  rewrite bool_decide_eq_false_2 by done.
  destruct (empilhar_spec (contar texto) []) as (heap & -> & Hperm & Hheap);
    [apply is_heap_nil|].
  rewrite app_nil_r in Hperm. passo.
  pose proof (contar_nonempty texto Hne) as Hcne.
  assert (length heap = length (contar texto)) as Hlen
    by (by rewrite Hperm, length_fmap).
  case_bool_decide as H1.
  - destruct (contar texto) as [|[c f] [|? ?]] eqn:Hc; [done| |simpl in *; lia].
    apply Permutation_singleton_r in Hperm. subst heap.
    rewrite heappop_um. passo.
    exists (folha (c, f)), {[Some c := "0"]}.
    split_and!; [done|constructor|done|]. left. eauto.
  - assert (heap ≠ []) as Hhne.
    { intros ->. destruct (contar texto); [done|simpl in Hlen; lia]. }
    destruct (fundir_arvore (length heap) heap) as (raiz & Hf & Hok & Hpares);
      [done|done|done| |].
    { rewrite Hperm. apply Forall_fmap, Forall_true. apply folha_ok. }
    destruct (fundir_otimo (length heap) heap) as (raiz' & Hf' & Hopt);
      [done..|].
    rewrite Hf in Hf' |- *. simplify_eq. passo.
    rewrite heappop_um. passo.
    exists raiz', (gerar_codigos (Some raiz') "" ∅).
    split_and!; [done|done| |].
    { by rewrite Hpares, Hperm, bind_pares_folha. }
    right. split_and!; [|done|].
    { destruct (contar texto) as [|? [|? ?]]; simpl in *; [done|lia|lia]. }
    intros ls Hls Hk.
    assert (sum_list_with custo_arvore heap = 0) as Hz.
    { rewrite Hperm. clear. induction (contar texto) as [|[??] ? IH]; [done|].
      rewrite fmap_cons. simpl. by rewrite IH. }
    specialize (Hopt ls). rewrite Hz in Hopt. apply Hopt; [|done].
    rewrite Hls, Hperm, <-list_fmap_compose.
    by rewrite (list_fmap_ext snd (freq ∘ folha) (contar texto)).
Qed.


(** * Decoding *)

Lemma simbolo_de_Some (codigos : gmap (option ascii) string) c v :
  codigos !! Some c = Some v →
  (∀ k, codigos !! k = Some v → k = Some c) →
  simbolo_de codigos v = Some c.
Proof.
  intros Hc Huniq. unfold simbolo_de.
  destruct (omap _ (map_to_list codigos)) as [|c' l] eqn:Hl.
  - assert (c ∈ omap (λ kv : option ascii * string,
        if bool_decide (kv.2 = v) then kv.1 else None) (map_to_list codigos))
      as Hin; [|by rewrite Hl in Hin; apply elem_of_nil in Hin].
    apply list_elem_of_omap. exists (Some c, v). split.
    + by apply elem_of_map_to_list.
    + simpl. by rewrite bool_decide_eq_true_2.
  - assert (c' ∈ omap (λ kv : option ascii * string,
        if bool_decide (kv.2 = v) then kv.1 else None) (map_to_list codigos))
      as Hin by (rewrite Hl; set_solver).
    apply list_elem_of_omap in Hin as ([k v'] & Hkv%elem_of_map_to_list & Hk).
    simpl in Hk. case_bool_decide; [|done]. simplify_eq.
    apply Huniq in Hkv. simpl. congruence.
Qed.

Lemma simbolo_de_None (codigos : gmap (option ascii) string) v :
  (∀ k, codigos !! k ≠ Some v) → simbolo_de codigos v = None.
Proof.
  intros Hno. unfold simbolo_de.
  destruct (omap _ (map_to_list codigos)) as [|c' l] eqn:Hl; [done|].
  assert (c' ∈ omap (λ kv : option ascii * string,
      if bool_decide (kv.2 = v) then kv.1 else None) (map_to_list codigos))
    as Hin by (rewrite Hl; set_solver).
  apply list_elem_of_omap in Hin as ([k v'] & Hkv%elem_of_map_to_list & Hk).
  simpl in Hk. case_bool_decide; [|done]. simplify_eq.
  by destruct (Hno (Some c')).
Qed.

Lemma casar_None codigos lido resto :
  (∀ q, q ≠ "" → String.prefix q resto = true →
        simbolo_de codigos (lido +:+ q) = None) →
  casar codigos lido resto = None.
Proof.
  revert lido. induction resto as [|b r IH]; intros lido Hq; [done|].
  cbn [casar]. rewrite IH.
  - rewrite (Hq (String b "")); [done|done|]. rewrite prefix_cons. by destruct r.
  - intros q Hne Hp. rewrite string_app_assoc, string_app_cons, string_app_nil_l.
    apply Hq; [done|]. by rewrite prefix_cons.
Qed.

Lemma casar_Some codigos lido u resto c :
  u ≠ "" → simbolo_de codigos (lido +:+ u) = Some c →
  (∀ q, q ≠ "" → String.prefix q (u +:+ resto) = true → q ≠ u →
        simbolo_de codigos (lido +:+ q) = None) →
  casar codigos lido (u +:+ resto) = Some (c, resto).
Proof.
  revert lido. induction u as [|b u IH]; intros lido Hne Hc Hq; [done|].
  rewrite string_app_cons. cbn [casar].
  destruct (decide (u = "")) as [->|Hu].
  - rewrite string_app_nil_l, casar_None.
    + by rewrite Hc.
    + intros q Hqne Hp.
      rewrite string_app_assoc, string_app_cons, string_app_nil_l.
      apply Hq; [done| |by intros [= ->]].
      by rewrite string_app_cons, prefix_cons.
  - rewrite IH; [done|done| |].
    + by rewrite string_app_assoc, string_app_cons, string_app_nil_l.
    + intros q Hqne Hp Hqu.
      rewrite string_app_assoc, string_app_cons, string_app_nil_l.
      apply Hq; [done| |by intros [= ->]].
      by rewrite string_app_cons, prefix_cons.
Qed.

(** Two prefixes of one string are prefixes of each other, one way or the
    other. *)
Lemma prefix_comparable q u s :
  String.prefix q s = true → String.prefix u s = true →
  String.prefix q u = true ∨ String.prefix u q = true.
Proof.
  revert q u. induction s as [|a s IH]; intros [|b q] [|c u]; simpl; auto; try done.
  destruct (ascii_dec b a) as [Hba|]; [|done].
  destruct (ascii_dec c a) as [Hca|]; [|done].
  destruct (ascii_dec b c) as [|Hn]; [|congruence].
  destruct (ascii_dec c b) as [|Hn]; [|congruence]. apply IH.
Qed.

Section decodificar.
Context (codigos : gmap (option ascii) string).
Hypothesis prefixos : ∀ k1 k2 v1 v2,
  codigos !! k1 = Some v1 → codigos !! k2 = Some v2 → k1 ≠ k2 →
  String.prefix v1 v2 = false.

Lemma casar_codigo c u resto :
  codigos !! Some c = Some u → u ≠ "" →
  casar codigos "" (u +:+ resto) = Some (c, resto).
Proof.
  intros Hc Hu. apply casar_Some; [done| |].
  - rewrite string_app_nil_l. apply simbolo_de_Some; [done|].
    intros k Hk. destruct (decide (k = Some c)) as [|Hne]; [done|].
    pose proof (prefix_refl u) as Hr.
    by rewrite (prefixos _ _ _ _ Hk Hc Hne) in Hr.
  - intros q Hq Hp Hqu. rewrite string_app_nil_l. apply simbolo_de_None.
    intros k Hk.
    assert (String.prefix u (u +:+ resto) = true) as Hpu
      by (apply prefix_iff; eauto).
    destruct (decide (k = Some c)) as [->|Hne]; [congruence|].
    destruct (prefix_comparable _ _ _ Hp Hpu) as [H|H].
    + by rewrite (prefixos _ _ _ _ Hk Hc Hne) in H.
    + rewrite (prefixos _ _ _ _ Hc Hk) in H; [done|congruence].
Qed.

Lemma juntar_cons c t v :
  codigos !! Some c = Some v →
  juntar codigos (String c t) = v +:+ juntar codigos t.
Proof. intros Hv. cbn [juntar]. by rewrite Hv. Qed.

Lemma decodificar_juntar texto n :
  (∀ c, c ∈ String.list_ascii_of_string texto →
        ∃ v, codigos !! Some c = Some v ∧ v ≠ "") →
  String.length (juntar codigos texto) ≤ n →
  decodificar_ate n codigos (juntar codigos texto) = Some texto.
Proof.
  revert n. induction texto as [|c t IH]; intros n Hall Hn.
  { by destruct n. }
  destruct (Hall c) as (v & Hv & Hne); [set_solver|].
  rewrite (juntar_cons _ _ _ Hv) in *.
  rewrite string_app_length in Hn.
  destruct v as [|b v]; [done|]. simpl in Hn.
  destruct n as [|n]; [lia|].
  rewrite string_app_cons at 1. cbn [decodificar_ate].
  rewrite <-string_app_cons, (casar_codigo c) by done.
  cbn [mbind option_bind]. rewrite IH; [done|set_solver|lia].
Qed.
End decodificar.


(** * The code table of a non-empty text *)

(** The table as a list: symbol, frequency and code of every entry. *)
Lemma construir_arvore_tabela texto :
  texto ≠ "" →
  ∃ raiz codigos (cods : list (ascii * nat * string)),
    construir_arvore texto = Ok (Some raiz, codigos) ∧
    arvore_ok raiz ∧
    (λ x, x.1) <$> cods ≡ₚ contar texto ∧
    (∀ k v, codigos !! k = Some v ↔ ∃ c f, k = Some c ∧ (c, f, v) ∈ cods) ∧
    (∀ x, x ∈ cods → x.2 ≠ "" ∧ binario x.2 = true) ∧
    (∀ x y, x ∈ cods → y ∈ cods → x.1.1 ≠ y.1.1 →
       String.prefix x.2 y.2 = false) ∧
    (∀ ls, ls.*1 ≡ₚ (contar texto).*2 → kraft ls.*2 →
       (∀ l, l ∈ ls.*2 → 0 < l) ∨ 1 < length (contar texto) →
       sum_list_with (λ x, x.1.2 * String.length x.2) cods ≤ custo_de ls).
Proof.
  intros Hne.
  destruct (construir_arvore_ok texto Hne)
    as (raiz & codigos & Hc & Hok & Hpares & Hcase).
  destruct Hcase as [(c & f & Hcont & -> & ->)|(Hlen & -> & Hopt)].
  - exists (folha (c, f)), {[Some c := "0"]}, [(c, f, "0")].
    split_and!; [done|done|by rewrite Hcont|..].
    + intros k v. rewrite lookup_singleton_Some. split.
      * intros [<- <-]. exists c, f. split; [done|]. set_solver.
      * intros (c' & f' & -> & Hin%list_elem_of_singleton). by simplify_eq.
    + by intros x ->%list_elem_of_singleton.
    + by intros x y ->%list_elem_of_singleton ->%list_elem_of_singleton.
    + intros ls Hls Hk Hpos. rewrite Hcont in Hls, Hpos. simpl in Hls, Hpos.
      destruct Hpos as [Hpos|?]; [|lia].
      apply Permutation_singleton_r in Hls.
      destruct ls as [|[w l] [|? ?]]; simplify_eq/=.
      assert (0 < l) by (apply Hpos; set_solver). unfold custo_de. simpl. nia.
  - assert (char raiz = None) as Hchar.
    { pose proof (arvore_ok_pares_length raiz Hok) as Hl.
      destruct (char raiz); [|done].
      apply Permutation_length in Hpares. lia. }
    assert (NoDup (pares raiz).*1) as Hnd.
    { rewrite Hpares. apply contar_NoDup. }
    exists raiz, (gerar_codigos (Some raiz) "" ∅), (folhas raiz "").
    split_and!; [done|done|by rewrite folhas_pares_prefixo|..].
    + intros k v. cbn [gerar_codigos]. split.
      * intros Hk. exact (gerar_codigos_no_inv _ _ _ _ Hok Hk).
      * intros (c & f & -> & Hin). by eapply gerar_codigos_no_Some.
    + intros x Hx. split; [|by apply (folhas_binario raiz "")].
      destruct raiz as [ch f l r]. simpl in Hchar. subst ch.
      apply folhas_interna_length in Hx. intros Heq. rewrite Heq in Hx.
      simpl in Hx. lia.
    + intros x y Hx Hy Hxy. by eapply folhas_prefix_free.
    + intros ls Hls Hk _. rewrite custo_arvore_folhas by done.
      simpl. specialize (Hopt ls Hls Hk). lia.
Qed.

Lemma sum_list_with_fmap {A B} (f : B → nat) (g : A → B) (l : list A) :
  sum_list_with f (g <$> l) = sum_list_with (f ∘ g) l.
Proof. induction l as [|a l IH]; [done|]. rewrite fmap_cons. simpl. by rewrite IH. Qed.

Lemma sum_list_with_ext {A} (f g : A → nat) (l : list A) :
  (∀ x, x ∈ l → f x = g x) → sum_list_with f l = sum_list_with g l.
Proof.
  induction l as [|a l IH]; intros Hfg; [done|].
  simpl. rewrite IH by set_solver. rewrite Hfg by set_solver. done.
Qed.

(** A binary prefix code gives the symbols of a frequency table codes of
    which none is a prefix of another. *)
Lemma codigo_prefixo_livre (fs : list (ascii * nat))
    (alt : gmap (option ascii) string) :
  NoDup fs.*1 → codigo_prefixo fs alt →
  livre_de_prefixos ((λ p, default "" (alt !! Some p.1)) <$> fs).
Proof.
  intros Hnd [Hcod Hpre].
  assert (∀ c1 c2, c1 ∈ fs.*1 → c2 ∈ fs.*1 → c1 ≠ c2 →
    String.prefix (default "" (alt !! Some c1)) (default "" (alt !! Some c2))
      = false) as Hp.
  { intros c1 c2 H1 H2 Hne.
    destruct (Hcod c1 H1) as (v1 & Hv1 & _).
    destruct (Hcod c2 H2) as (v2 & Hv2 & _).
    rewrite Hv1, Hv2. simpl. by apply (Hpre c1 c2). }
  clear Hcod Hpre. induction fs as [|[c f] fs IH]; [done|].
  rewrite fmap_cons in Hnd. apply NoDup_cons in Hnd as [Hc Hnd].
  rewrite fmap_cons. split.
  - intros v ([c' f'] & -> & Hin)%list_elem_of_fmap. simpl.
    assert (c' ∈ fs.*1) by (by apply (list_elem_of_fmap_2 fst) in Hin).
    assert (c ≠ c') by (by intros ->).
    split; apply Hp; rewrite ?fmap_cons; set_solver.
  - apply IH; [done|]. intros c1 c2 H1 H2. apply Hp; rewrite fmap_cons; set_solver.
Qed.

(** The code lengths of a binary prefix code satisfy Kraft's inequality. *)
Lemma codigo_prefixo_kraft (fs : list (ascii * nat))
    (alt : gmap (option ascii) string) :
  NoDup fs.*1 → codigo_prefixo fs alt →
  let ls := (λ p, (p.2, String.length (default "" (alt !! Some p.1)))) <$> fs in
  ls.*1 = fs.*2 ∧ kraft ls.*2 ∧ custo_de ls = custo fs alt.
Proof.
  intros Hnd Htab ls. subst ls. split_and!.
  - by rewrite <-list_fmap_compose.
  - assert (((λ p : ascii * nat,
        (p.2, String.length (default "" (alt !! Some p.1)))) <$> fs).*2 =
      String.length <$> ((λ p, default "" (alt !! Some p.1)) <$> fs)) as ->
      by (by rewrite <-!list_fmap_compose).
    apply kraft_livre; [|by apply codigo_prefixo_livre].
    intros v ([c f] & -> & Hin)%list_elem_of_fmap. simpl.
    destruct Htab as [Hcod _].
    destruct (Hcod c) as (v & -> & Hb); [|done].
    by apply (list_elem_of_fmap_2 fst) in Hin.
  - unfold custo_de, custo. by rewrite sum_list_with_fmap.
Qed.

(** The codes of a code table are not empty. *)
Lemma tabela_prefixa_positiva (fs : list (ascii * nat))
    (alt : gmap (option ascii) string) :
  tabela_prefixa fs alt →
  ∀ l, l ∈ ((λ p, (p.2, String.length (default "" (alt !! Some p.1))))
              <$> fs).*2 → 0 < l.
Proof.
  intros [[Hcod _] Hne] l. rewrite <-list_fmap_compose.
  intros ([c f] & -> & Hin)%list_elem_of_fmap. simpl.
  assert (c ∈ fs.*1) as Hc by (by apply (list_elem_of_fmap_2 fst) in Hin).
  destruct (Hcod c Hc) as (v & Hv & _). rewrite Hv. simpl.
  apply (Hne c v Hc) in Hv. destruct v; [done|simpl; lia].
Qed.


(** * Runs on small inputs *)

Example heappush_ex :
  foldl (λ r x, h ← r; heapq.heappush Nat.ltb h x) (Ok []) [5; 3; 8; 1; 9; 2]
  = Ok [1; 3; 2; 5; 9; 8].
Proof. reflexivity. Qed.

Example heappop_ex :
  heapq.heappop Nat.ltb [1; 3; 2; 5; 9; 8] = Ok (1, [2; 3; 8; 5; 9]).
Proof. reflexivity. Qed.

Example heappop_vazio : heapq.heappop Nat.ltb [] = Raise IndexError.
Proof. reflexivity. Qed.

Example contar_abracadabra :
  contar "abracadabra" =
  [("a", 5); ("b", 2); ("r", 2); ("c", 1); ("d", 1)]%char.
Proof. reflexivity. Qed.

Example construir_arvore_abracadabra :
  ∃ raiz, construir_arvore "abracadabra" =
    Ok (Some raiz,
        list_to_map [(Some "a"%char, "0"); (Some "c"%char, "100"); (Some "d"%char, "101");
                     (Some "r"%char, "110"); (Some "b"%char, "111")]) ∧
    freq raiz = 11.
Proof. eexists. split; vm_compute; reflexivity. Qed.

Example comprimir_abracadabra :
  comprimir "abracadabra"
    (list_to_map [(Some "a"%char, "0"); (Some "c"%char, "100"); (Some "d"%char, "101");
                  (Some "r"%char, "110"); (Some "b"%char, "111")])
  = "01111100100010101111100".
Proof. vm_compute. reflexivity. Qed.

Example decodificar_abracadabra :
  decodificar
    (list_to_map [(Some "a"%char, "0"); (Some "c"%char, "100"); (Some "d"%char, "101");
                  (Some "r"%char, "110"); (Some "b"%char, "111")])
    "01111100100010101111100"
  = Some "abracadabra".
Proof. vm_compute. reflexivity. Qed.

Example construir_arvore_aabb :
  ∃ raiz, construir_arvore "aabb" =
    Ok (Some raiz, list_to_map [(Some "a"%char, "0"); (Some "b"%char, "1")]) ∧
    comprimir "aabb" (list_to_map [(Some "a"%char, "0"); (Some "b"%char, "1")])
    = "0011".
Proof. eexists. split; vm_compute; reflexivity. Qed.

(** For a one-symbol text the program's table costs one digit per
    character.  Giving the symbol the empty string would cost nothing; it
    is a binary prefix code in the letter, but not a code table: the codes
    of a code table are not empty. *)
Example custo_simbolo_unico :
  custo (contar "aaaa") {[Some "a"%char := "0"]} = 4 ∧
  custo (contar "aaaa") {[Some "a"%char := ""]} = 0 ∧
  codigo_prefixo (contar "aaaa") {[Some "a"%char := ""]} ∧
  ¬ tabela_prefixa (contar "aaaa") {[Some "a"%char := ""]}.
Proof.
  split_and!; [reflexivity|reflexivity| |].
  - split.
    + intros c ->%list_elem_of_singleton. by exists "".
    + intros c1 c2 v1 v2 ->%list_elem_of_singleton ->%list_elem_of_singleton.
      done.
  - intros [_ Hne].
    apply (Hne "a"%char ""); [by apply list_elem_of_singleton|done|done].
Qed.


(** * The properties of the specification *)

Lemma tabela_lookup (codigos : gmap (option ascii) string)
    (cods : list (ascii * nat * string)) texto :
  (λ x, x.1) <$> cods ≡ₚ contar texto →
  (∀ k v, codigos !! k = Some v ↔ ∃ c f, k = Some c ∧ (c, f, v) ∈ cods) →
  ∀ c, c ∈ String.list_ascii_of_string texto →
  ∃ f v, (c, f, v) ∈ cods ∧ codigos !! Some c = Some v.
Proof.
  intros Hperm Hlook c Hc. apply contar_elem in Hc.
  rewrite <-Hperm, <-list_fmap_compose in Hc.
  apply list_elem_of_fmap in Hc as ([[c' f] v] & -> & Hin).
  exists f, v. split; [done|]. apply Hlook. eauto.
Qed.

(** C1: for every non-empty text, decoding what [comprimir] produces with
    the table [construir_arvore] built, matching the longest code at each
    position, gives the text back. *)
Theorem decodificar_comprimir texto :
  texto ≠ "" →
  ∃ raiz codigos,
    construir_arvore texto = Ok (Some raiz, codigos) ∧
    decodificar codigos (comprimir texto codigos) = Some texto.
Proof.
  intros Hne.
  destruct (construir_arvore_tabela texto Hne)
    as (raiz & codigos & cods & Hc & _ & Hperm & Hlook & Hcod & Hpre & _).
  exists raiz, codigos. split; [done|].
  pose proof (tabela_lookup _ _ _ Hperm Hlook) as Hall.
  assert (codigos ≠ ∅) as Hnemp.
  { destruct texto as [|c t]; [done|].
    destruct (Hall c) as (f & v & _ & Hv); [set_solver|].
    intros ->. by rewrite lookup_empty in Hv. }
  unfold comprimir, decodificar. rewrite bool_decide_eq_false_2 by done.
  apply decodificar_juntar; [| |done].
  - intros k1 k2 v1 v2 H1 H2 Hk.
    apply Hlook in H1 as (c1 & f1 & -> & H1).
    apply Hlook in H2 as (c2 & f2 & -> & H2).
    apply (Hpre _ _ H1 H2). simpl. congruence.
  - intros c Hin. destruct (Hall c Hin) as (f & v & Hv & Hl).
    exists v. split; [done|]. by apply (Hcod _ Hv).
Qed.

Lemma decodificar_comprimir_witness :
  "abracadabra" ≠ "" ∧
  ∃ raiz codigos,
    construir_arvore "abracadabra" = Ok (Some raiz, codigos) ∧
    decodificar codigos (comprimir "abracadabra" codigos) = Some "abracadabra".
Proof. split; [discriminate|]. apply decodificar_comprimir. discriminate. Defined.

(** C3: in the table built for a non-empty text every symbol of the text
    has a code, every code is a non-empty string of '0' and '1', two
    distinct symbols have distinct codes, and neither code is a prefix of
    the other. *)
Theorem codigos_livres_de_prefixos texto :
  texto ≠ "" →
  ∃ raiz codigos,
    construir_arvore texto = Ok (Some raiz, codigos) ∧
    (∀ c, c ∈ String.list_ascii_of_string texto → is_Some (codigos !! Some c)) ∧
    (∀ k v, codigos !! k = Some v → v ≠ "" ∧ binario v = true) ∧
    (∀ k1 k2 v1 v2, k1 ≠ k2 →
       codigos !! k1 = Some v1 → codigos !! k2 = Some v2 →
       String.prefix v1 v2 = false ∧ String.prefix v2 v1 = false ∧ v1 ≠ v2).
Proof.
  intros Hne.
  destruct (construir_arvore_tabela texto Hne)
    as (raiz & codigos & cods & Hc & _ & Hperm & Hlook & Hcod & Hpre & _).
  exists raiz, codigos. split_and!; [done|..].
  - intros c Hin.
    destruct (tabela_lookup _ _ _ Hperm Hlook c Hin) as (f & v & _ & Hv). eauto.
  - intros k v (c & f & -> & Hin)%Hlook. by apply (Hcod _ Hin).
  - intros k1 k2 v1 v2 Hk H1 H2.
    apply Hlook in H1 as (c1 & f1 & -> & H1).
    apply Hlook in H2 as (c2 & f2 & -> & H2).
    assert (c1 ≠ c2) by congruence.
    assert (String.prefix v1 v2 = false) as Hp by (by apply (Hpre _ _ H1 H2)).
    split_and!; [done|by apply (Hpre _ _ H2 H1)|].
    intros ->. by rewrite prefix_refl in Hp.
Qed.

Lemma codigos_livres_de_prefixos_witness :
  "abracadabra" ≠ "" ∧
  ∃ raiz codigos,
    construir_arvore "abracadabra" = Ok (Some raiz, codigos) ∧
    (∀ c, c ∈ String.list_ascii_of_string "abracadabra" →
          is_Some (codigos !! Some c)) ∧
    (∀ k v, codigos !! k = Some v → v ≠ "" ∧ binario v = true) ∧
    (∀ k1 k2 v1 v2, k1 ≠ k2 →
       codigos !! k1 = Some v1 → codigos !! k2 = Some v2 →
       String.prefix v1 v2 = false ∧ String.prefix v2 v1 = false ∧ v1 ≠ v2).
Proof. split; [discriminate|]. apply codigos_livres_de_prefixos. discriminate. Defined.

(** C9: in the tree built for a non-empty text, a node with a character
    has no child, and a node without one has exactly two children and the
    sum of their frequencies as its own. *)
Theorem construir_arvore_forma texto :
  texto ≠ "" →
  ∃ raiz codigos,
    construir_arvore texto = Ok (Some raiz, codigos) ∧
    ∀ n, n ∈ nos raiz →
      match char n with
      | Some _ => left n = None ∧ right n = None
      | None => ∃ l r, left n = Some l ∧ right n = Some r ∧
                       freq n = freq l + freq r
      end.
Proof.
  intros Hne.
  destruct (construir_arvore_ok texto Hne) as (raiz & codigos & Hc & Hok & _).
  exists raiz, codigos. split; [done|]. by apply arvore_ok_nos.
Qed.

Lemma construir_arvore_forma_witness :
  "abracadabra" ≠ "" ∧
  ∃ raiz codigos,
    construir_arvore "abracadabra" = Ok (Some raiz, codigos) ∧
    ∀ n, n ∈ nos raiz →
      match char n with
      | Some _ => left n = None ∧ right n = None
      | None => ∃ l r, left n = Some l ∧ right n = Some r ∧
                       freq n = freq l + freq r
      end.
Proof. split; [discriminate|]. apply construir_arvore_forma. discriminate. Defined.


(** C2: the table built for a non-empty text is a code table for the
    text's frequency table, and the sum of frequency times code length is
    no larger for it than for any other code table; when the text has two
    distinct symbols or more, no larger than for any binary prefix code
    at all. *)
Theorem construir_arvore_otima texto :
  texto ≠ "" →
  ∃ raiz codigos,
    construir_arvore texto = Ok (Some raiz, codigos) ∧
    tabela_prefixa (contar texto) codigos ∧
    (∀ alt, tabela_prefixa (contar texto) alt →
       custo (contar texto) codigos ≤ custo (contar texto) alt) ∧
    (1 < length (contar texto) →
     ∀ alt, codigo_prefixo (contar texto) alt →
       custo (contar texto) codigos ≤ custo (contar texto) alt).
Proof.
  intros Hne.
  destruct (construir_arvore_tabela texto Hne)
    as (raiz & codigos & cods & Hc & _ & Hperm & Hlook & Hcod & Hpre & Hopt).
  assert (custo (contar texto) codigos =
    sum_list_with (λ x, x.1.2 * String.length x.2) cods) as Hcusto.
  { unfold custo. rewrite <-Hperm, sum_list_with_fmap.
    apply sum_list_with_ext. intros [[c f] v] Hin. simpl.
    assert (codigos !! Some c = Some v) as -> by (apply Hlook; eauto). done. }
  assert (∀ alt, codigo_prefixo (contar texto) alt →
    (∀ l, l ∈ ((λ p, (p.2, String.length (default "" (alt !! Some p.1))))
                 <$> contar texto).*2 → 0 < l) ∨ 1 < length (contar texto) →
    custo (contar texto) codigos ≤ custo (contar texto) alt) as Hmin.
  { intros alt Halt Hpos.
    destruct (codigo_prefixo_kraft (contar texto) alt (contar_NoDup texto) Halt)
      as (Hw & Hk & <-).
    rewrite Hcusto. apply Hopt; [by rewrite Hw|done|done]. }
  exists raiz, codigos. split_and!; [done| | |].
  - split; [split|].
    + intros c Hin. apply contar_elem in Hin.
      destruct (tabela_lookup _ _ _ Hperm Hlook c Hin) as (f & v & Hv & Hl).
      exists v. split; [done|]. by apply (Hcod _ Hv).
    + intros c1 c2 v1 v2 _ _ Hne12 H1 H2.
      apply Hlook in H1 as (c1' & f1 & [= <-] & H1).
      apply Hlook in H2 as (c2' & f2 & [= <-] & H2).
      by apply (Hpre _ _ H1 H2).
    + intros c v _ (c' & f & [= <-] & Hin)%Hlook. by apply (Hcod _ Hin).
  - intros alt Halt. apply Hmin; [apply Halt|].
    left. by apply tabela_prefixa_positiva.
  - intros Hlen alt Halt. apply Hmin; [done|]. by right.
Qed.

Lemma construir_arvore_otima_witness :
  "abracadabra" ≠ "" ∧
  ∃ raiz codigos,
    construir_arvore "abracadabra" = Ok (Some raiz, codigos) ∧
    tabela_prefixa (contar "abracadabra") codigos ∧
    (∀ alt, tabela_prefixa (contar "abracadabra") alt →
       custo (contar "abracadabra") codigos ≤
       custo (contar "abracadabra") alt) ∧
    (1 < length (contar "abracadabra") →
     ∀ alt, codigo_prefixo (contar "abracadabra") alt →
       custo (contar "abracadabra") codigos ≤
       custo (contar "abracadabra") alt).
Proof. split; [discriminate|]. apply construir_arvore_otima. discriminate. Defined.

Lemma juntar_um c v texto :
  (∀ x, x ∈ String.list_ascii_of_string texto → x = c) →
  juntar {[Some c := v]} texto = repetir v (String.length texto).
Proof.
  induction texto as [|a t IH]; intros Hall; [done|].
  assert (a = c) as -> by (apply Hall; set_solver).
  cbn [juntar String.length repetir]. rewrite lookup_singleton_eq.
  by rewrite IH by set_solver.
Qed.

(** C5: a text made of one repeated character has the one-entry frequency
    table, its character gets the code "0", and the encoded output is one
    '0' per character. *)
Theorem simbolo_unico texto c :
  texto ≠ "" →
  (∀ x, x ∈ String.list_ascii_of_string texto → x = c) →
  contar texto = [(c, String.length texto)] ∧
  construir_arvore texto =
    Ok (Some (NoHuffman_init (Some c) (String.length texto)),
        {[Some c := "0"]}) ∧
  comprimir texto {[Some c := "0"]} = repetir "0" (String.length texto).
Proof.
  intros Hne Hall.
  assert (contar texto = [(c, String.length texto)]) as Hcont.
  { destruct texto as [|a t]; [done|].
    assert (a = c) as -> by (apply Hall; set_solver).
    unfold contar. cbn [contar_desde incrementar].
    rewrite contar_desde_um by set_solver. done. }
  split_and!; [done| |].
  - unfold construir_arvore. rewrite bool_decide_eq_false_2 by done.
    rewrite Hcont. done.
  - unfold comprimir. rewrite bool_decide_eq_false_2.
    + by apply juntar_um.
    + intros Hemp. apply (f_equal (λ m, m !! Some c)) in Hemp.
      by rewrite lookup_singleton_eq, lookup_empty in Hemp.
Qed.

Lemma simbolo_unico_witness :
  contar "aaaa" = [("a"%char, 4)] ∧
  construir_arvore "aaaa" =
    Ok (Some (NoHuffman_init (Some "a"%char) 4), {[Some "a"%char := "0"]}) ∧
  comprimir "aaaa" {[Some "a"%char := "0"]} = "0000".
Proof.
  apply (simbolo_unico "aaaa" "a").
  - discriminate.
  - intros x Hx. repeat (apply elem_of_cons in Hx as [->|Hx]; [reflexivity|]).
    by apply elem_of_nil in Hx.
Defined.

Lemma string_concat_cons (x : string) (xs : list string) :
  String.concat "" (x :: xs) = x +:+ String.concat "" xs.
Proof. destruct xs; [by rewrite string_app_nil_r|done]. Qed.

(** C7: when every symbol of the text has an entry, [comprimir] returns
    the codes of the symbols of the text, in order, one after the other;
    for an empty text or an empty table it returns the empty string. *)
Theorem comprimir_concatena (texto : string) (codigos : gmap (option ascii) string) :
  (∀ cs, Forall2 (λ c v, codigos !! Some c = Some v)
           (String.list_ascii_of_string texto) cs →
         comprimir texto codigos = String.concat "" cs) ∧
  (texto = "" ∨ codigos = ∅ → comprimir texto codigos = "").
Proof.
  split.
  - intros cs Hcs. unfold comprimir. case_bool_decide as Hemp.
    + subst codigos. destruct Hcs as [|c v ? ? Hv]; [done|].
      by rewrite lookup_empty in Hv.
    + clear Hemp. revert cs Hcs.
      induction texto as [|a t IH]; intros cs Hcs; simpl in Hcs.
      * by inversion Hcs.
      * inversion Hcs as [|? v ? cs' Hv Hcs']; subst.
        rewrite string_concat_cons. cbn [juntar]. rewrite Hv.
        by rewrite (IH cs').
  - unfold comprimir. intros [->| ->].
    + by case_bool_decide.
    + by rewrite bool_decide_eq_true_2.
Qed.

Lemma comprimir_concatena_witness :
  comprimir "aba" {[Some "a"%char := "0"; Some "b"%char := "10"]} = "0100".
Proof.
  apply (proj1 (comprimir_concatena "aba"
    {[Some "a"%char := "0"; Some "b"%char := "10"]}) ["0"; "10"; "0"]).
  repeat constructor.
Defined.


(** C6, as the code has it: a symbol without an entry raises nothing and
    adds nothing to the output, which is the encoding of the text without
    those symbols. *)
Theorem comprimir_omite_sem_codigo (texto : string)
    (codigos : gmap (option ascii) string) :
  comprimir texto codigos =
    comprimir (so_codificados codigos texto) codigos ∧
  ∀ c, c ∈ String.list_ascii_of_string (so_codificados codigos texto) →
       is_Some (codigos !! Some c).
Proof.
  split.
  - unfold comprimir. case_bool_decide; [done|].
    induction texto as [|a t IH]; [done|]. cbn [so_codificados juntar].
    case_decide as Ha.
    + cbn [juntar]. by rewrite IH.
    + rewrite IH. apply eq_None_not_Some in Ha. by rewrite Ha.
  - induction texto as [|a t IH]; intros c; cbn [so_codificados].
    { by intros ?%elem_of_nil. }
    case_decide as Ha; [|by apply IH]. simpl.
    intros [->|Hc]%elem_of_cons; [done|by apply IH].
Qed.

(** C6 does not hold of the code: 'b' has no entry, nothing is raised and
    the output leaves it out. *)
Lemma comprimir_omite_sem_codigo_contra :
  ({[Some "a"%char := "0"]} : gmap (option ascii) string) !! Some "b"%char
    = None ∧
  comprimir "ab" {[Some "a"%char := "0"]} = "0".
Proof. split; reflexivity. Qed.

(** C8, as the code has it: at a node with a character [gerar_codigos]
    writes the path it was given, whatever it is; it is [construir_arvore]
    that gives the only symbol of a text the code "0", without a call of
    [gerar_codigos]. *)
Theorem gerar_codigos_folha (c : ascii) (f : nat) (codigo_atual : string)
    (codigos : gmap (option ascii) string) :
  gerar_codigos (Some (NoHuffman_init (Some c) f)) codigo_atual codigos =
    <[Some c := codigo_atual]> codigos.
Proof. reflexivity. Qed.

(** C8 does not hold of the code: for a root that is a leaf and the empty
    path, the symbol gets the empty string, not "0". *)
Lemma gerar_codigos_folha_contra :
  gerar_codigos (Some (NoHuffman_init (Some "a"%char) 4)) "" ∅
    !! Some "a"%char = Some "" ∧
  gerar_codigos (Some (NoHuffman_init (Some "a"%char) 4)) "" ∅
    !! Some "a"%char ≠ Some "0".
Proof. split; [reflexivity|discriminate]. Qed.

(** C4, as the code has it: for the empty text [construir_arvore] returns
    the pair of [None] and the empty table, and raises nothing. *)
Theorem construir_arvore_vazio :
  construir_arvore "" = Ok (None, ∅) ∧
  ∀ e, construir_arvore "" ≠ Raise e.
Proof. split; [reflexivity|discriminate]. Qed.

(** C4 does not hold of the code: no exception comes out of
    [construir_arvore] for the empty text. *)
Lemma construir_arvore_vazio_contra :
  ¬ ∃ e, construir_arvore "" = Raise e.
Proof. intros [e He]. discriminate. Qed.

(** C10: for the empty text [construir_arvore] returns [None] and the
    empty table without raising, [comprimir] returns the empty string for
    the empty table, and the two in a row end with the empty output. *)
Theorem texto_vazio_completa :
  construir_arvore "" = Ok (None, ∅) ∧
  (∀ texto, comprimir texto ∅ = "") ∧
  ('(_, codigos) ← construir_arvore ""; Ok (comprimir "" codigos)) = Ok "".
Proof. split_and!; [reflexivity| |reflexivity]. intros texto. reflexivity. Qed.


(** * Further properties of the program *)

(** ** [construir_arvore] returns *)

(** X1: [construir_arvore] raises for no text: none of the heap operations
    it calls pops an empty list or indexes out of range. *)
Theorem construir_arvore_retorna (texto : string) :
  ∃ raiz codigos, construir_arvore texto = Ok (raiz, codigos) ∧
    (raiz = None ↔ texto = "").
Proof.
  destruct (decide (texto = "")) as [->|Hne].
  - exists None, ∅. done.
  - destruct (construir_arvore_ok texto Hne) as (raiz & codigos & Hc & _).
    exists (Some raiz), codigos. split; [done|]. by split.
Qed.

(** ** The frequency table *)

Lemma soma_incrementar (w : ascii → nat) fs c :
  sum_list_with (λ p, p.2 * w p.1) (incrementar fs c) =
  sum_list_with (λ p, p.2 * w p.1) fs + w c.
Proof.
  induction fs as [|[k v] fs IH]; simpl; [lia|].
  destruct (decide (k = c)) as [->|Hne]; simpl; [lia|]. rewrite IH. lia.
Qed.

(** Summing over the table, each entry with its count, is summing over
    the characters of the text. *)
Lemma soma_contar_desde (w : ascii → nat) fs texto :
  sum_list_with (λ p, p.2 * w p.1) (contar_desde fs texto) =
  sum_list_with (λ p, p.2 * w p.1) fs +
  sum_list_with w (String.list_ascii_of_string texto).
Proof.
  revert fs. induction texto as [|c t IH]; intros fs; simpl; [lia|].
  rewrite IH, soma_incrementar. lia.
Qed.

Lemma soma_contar (w : ascii → nat) texto :
  sum_list_with (λ p, p.2 * w p.1) (contar texto) =
  sum_list_with w (String.list_ascii_of_string texto).
Proof. unfold contar. by rewrite soma_contar_desde. Qed.

Lemma length_list_ascii (texto : string) :
  length (String.list_ascii_of_string texto) = String.length texto.
Proof. induction texto; simpl; by f_equal. Qed.

Lemma soma_contar_um texto :
  sum_list_with snd (contar texto) = String.length texto.
Proof.
  rewrite <-length_list_ascii.
  rewrite <-(sum_list_with_ext (λ p, p.2 * 1) snd) by (intros; simpl; lia).
  rewrite (soma_contar (λ _, 1)).
  induction (String.list_ascii_of_string texto); simpl; by f_equal.
Qed.

Lemma ocorrencias_pos c texto :
  c ∈ String.list_ascii_of_string texto → 0 < ocorrencias c texto.
Proof.
  induction texto as [|a t IH]; simpl; [by intros ?%elem_of_nil|].
  intros [->|Hin]%elem_of_cons.
  - rewrite decide_True by done. lia.
  - apply IH in Hin. lia.
Qed.

(** X2: the frequency table has one entry for every character that occurs
    in the text and no other, each with the number of its occurrences, and
    the counts add up to the length of the text. *)
Theorem contar_tabela (texto : string) :
  NoDup (contar texto).*1 ∧
  (∀ c, c ∈ (contar texto).*1 ↔ c ∈ String.list_ascii_of_string texto) ∧
  (∀ c n, (c, n) ∈ contar texto → n = ocorrencias c texto ∧ 0 < n) ∧
  sum_list_with snd (contar texto) = String.length texto.
Proof.
  split_and!.
  - apply contar_NoDup.
  - apply contar_elem.
  - intros c n Hin. pose proof (contar_ocorrencias _ _ _ Hin) as ->.
    split; [done|]. apply ocorrencias_pos, contar_elem.
    by apply (list_elem_of_fmap_2 fst) in Hin.
  - apply soma_contar_um.
Qed.

(** ** The tree *)

Lemma arvore_ok_nos_length no :
  arvore_ok no → length (nos no) + 1 = 2 * length (pares no).
Proof.
  induction 1 as [c f|l r _ IHl _ IHr]; [done|].
  rewrite pares_interna, length_app. simpl. rewrite length_app. lia.
Qed.

(** X3: the leaves of the tree built for a non-empty text are the entries
    of its frequency table, each once; the root carries the length of the
    text; a text with [k] distinct symbols has a tree of [2k - 1] nodes. *)
Theorem construir_arvore_folhas texto :
  texto ≠ "" →
  ∃ raiz codigos,
    construir_arvore texto = Ok (Some raiz, codigos) ∧
    pares raiz ≡ₚ contar texto ∧
    freq raiz = String.length texto ∧
    length (nos raiz) = 2 * length (contar texto) - 1.
Proof.
  intros Hne.
  destruct (construir_arvore_ok texto Hne)
    as (raiz & codigos & Hc & Hok & Hpares & _).
  exists raiz, codigos. split_and!; [done|done| |].
  - by rewrite (arvore_ok_freq _ Hok), Hpares, soma_contar_um.
  - pose proof (arvore_ok_nos_length _ Hok) as Hn.
    rewrite Hpares in Hn. lia.
Qed.

Lemma construir_arvore_folhas_witness :
  ∃ raiz codigos,
    construir_arvore "abracadabra" = Ok (Some raiz, codigos) ∧
    pares raiz ≡ₚ contar "abracadabra" ∧
    freq raiz = 11 ∧
    length (nos raiz) = 9.
Proof. apply (construir_arvore_folhas "abracadabra"). discriminate. Defined.

(** ** The code table *)

(** X4: the keys of the table built for a non-empty text are the
    characters of the text, and nothing else: [None] is no key, and the
    table has as many entries as the text has distinct symbols. *)
Theorem codigos_chaves texto :
  texto ≠ "" →
  ∃ raiz codigos,
    construir_arvore texto = Ok (Some raiz, codigos) ∧
    (∀ k, is_Some (codigos !! k) ↔
          ∃ c, k = Some c ∧ c ∈ String.list_ascii_of_string texto) ∧
    size codigos = length (contar texto).
Proof.
  intros Hne.
  destruct (construir_arvore_tabela texto Hne)
    as (raiz & codigos & cods & Hc & _ & Hperm & Hlook & _).
  assert (∀ k, is_Some (codigos !! k) ↔
    ∃ c, k = Some c ∧ c ∈ String.list_ascii_of_string texto) as Hkeys.
  { intros k. split.
    - intros [v (c & f & -> & Hin)%Hlook]. exists c. split; [done|].
      apply contar_elem. rewrite <-Hperm, <-list_fmap_compose.
      by apply (list_elem_of_fmap_2 (λ x, x.1.1)) in Hin.
    - intros (c & -> & Hin).
      destruct (tabela_lookup _ _ _ Hperm Hlook c Hin) as (f & v & _ & Hv).
      eauto. }
  exists raiz, codigos. split_and!; [done|done|].
  assert (dom codigos = list_to_set (Some <$> (contar texto).*1)) as Hdom.
  { apply set_eq. intros k. rewrite elem_of_dom, Hkeys, elem_of_list_to_set.
    rewrite list_elem_of_fmap. setoid_rewrite contar_elem. naive_solver. }
  rewrite <-size_dom, Hdom, size_list_to_set, !length_fmap; [done|].
  apply NoDup_fmap; [apply _|apply contar_NoDup].
Qed.

Lemma codigos_chaves_witness :
  ∃ raiz codigos,
    construir_arvore "abracadabra" = Ok (Some raiz, codigos) ∧
    (∀ k, is_Some (codigos !! k) ↔
          ∃ c, k = Some c ∧ c ∈ String.list_ascii_of_string "abracadabra") ∧
    size codigos = 5.
Proof. apply (codigos_chaves "abracadabra"). discriminate. Defined.

(** ** The encoded output *)

Lemma juntar_length (codigos : gmap (option ascii) string) (texto : string) :
  String.length (juntar codigos texto) =
  sum_list_with (λ c, String.length (default "" (codigos !! Some c)))
    (String.list_ascii_of_string texto).
Proof.
  induction texto as [|c t IH]; [done|].
  cbn [juntar]. rewrite string_app_length, IH. done.
Qed.

Lemma comprimir_length_soma (texto : string) (codigos : gmap (option ascii) string) :
  String.length (comprimir texto codigos) =
  sum_list_with (λ c, String.length (default "" (codigos !! Some c)))
    (String.list_ascii_of_string texto).
Proof.
  unfold comprimir. case_bool_decide as He; [|apply juntar_length].
  subst. simpl. induction (String.list_ascii_of_string texto); [done|].
  simpl. by rewrite lookup_empty.
Qed.

(** X5: for any text and any table, the length of the encoded output is
    the sum, over the frequency table of the text, of count times code
    length (a symbol without a code counting for nothing). *)
Theorem comprimir_length (texto : string)
    (codigos : gmap (option ascii) string) :
  String.length (comprimir texto codigos) = custo (contar texto) codigos.
Proof.
  rewrite comprimir_length_soma. unfold custo.
  by rewrite (soma_contar
    (λ c, String.length (default "" (codigos !! Some c)))).
Qed.


(** ** The size of the encoded output *)

(** The cost of the table built, read off the list of its entries. *)
Lemma custo_tabela (codigos : gmap (option ascii) string)
    (cods : list (ascii * nat * string)) texto :
  (λ x, x.1) <$> cods ≡ₚ contar texto →
  (∀ k v, codigos !! k = Some v ↔ ∃ c f, k = Some c ∧ (c, f, v) ∈ cods) →
  custo (contar texto) codigos =
  sum_list_with (λ x, x.1.2 * String.length x.2) cods.
Proof.
  intros Hperm Hlook. unfold custo. rewrite <-Hperm, sum_list_with_fmap.
  apply sum_list_with_ext. intros [[c f] v] Hin. simpl.
  assert (codigos !! Some c = Some v) as -> by (apply Hlook; eauto). done.
Qed.

Lemma custo_comprimir (texto : string)
    (codigos : gmap (option ascii) string) :
  custo (contar texto) codigos = String.length (comprimir texto codigos).
Proof.
  rewrite comprimir_length_soma. unfold custo.
  by rewrite (soma_contar
    (λ c, String.length (default "" (codigos !! Some c)))).
Qed.

Lemma kraft_iguais (L : nat) (ls : list nat) :
  (∀ l, l ∈ ls → l = L) → length ls ≤ 2 ^ L → kraft ls.
Proof.
  intros Hall Hlen. apply (kraft_iff L).
  { intros l ->%Hall. done. }
  assert (ksum L ls = length ls) as ->; [|done].
  clear Hlen. induction ls as [|l ls IH]; [done|].
  rewrite ksum_cons, IH.
  - rewrite (Hall l) by set_solver. rewrite Nat.sub_diag. simpl. lia.
  - intros l' Hl'. apply Hall. set_solver.
Qed.

(** X6: the encoded output of a non-empty text has at least one digit per
    character, and no more digits than a code of fixed length would use:
    at most [L] per character for every [L >= 1] with at most [2 ^ L]
    distinct symbols in the text. *)
Theorem comprimir_limites texto :
  texto ≠ "" →
  ∃ raiz codigos,
    construir_arvore texto = Ok (Some raiz, codigos) ∧
    String.length texto ≤ String.length (comprimir texto codigos) ∧
    ∀ L, 0 < L → length (contar texto) ≤ 2 ^ L →
      String.length (comprimir texto codigos) ≤ L * String.length texto.
Proof.
  intros Hne.
  destruct (construir_arvore_tabela texto Hne)
    as (raiz & codigos & cods & Hc & _ & Hperm & Hlook & Hcod & _ & Hopt).
  exists raiz, codigos. split; [done|].
  rewrite <-custo_comprimir, (custo_tabela _ _ _ Hperm Hlook). split.
  - rewrite <-soma_contar_um, <-Hperm, sum_list_with_fmap.
    clear -Hcod. induction cods as [|x cods IH]; [done|]. simpl.
    assert (x.2 ≠ "") as Hx by (apply Hcod; set_solver).
    assert (0 < String.length x.2) by (destruct (x.2); [done|simpl; lia]).
    specialize (IH ltac:(set_solver)). nia.
  - intros L HL Hk.
    etrans; [apply (Hopt ((λ p, (p.2, L)) <$> contar texto))|].
    + by rewrite <-list_fmap_compose.
    + apply (kraft_iguais L); [|by rewrite !length_fmap].
      rewrite <-list_fmap_compose. by intros l (p & -> & _)%list_elem_of_fmap.
    + left. rewrite <-list_fmap_compose.
      by intros l (p & -> & _)%list_elem_of_fmap.
    + unfold custo_de. rewrite sum_list_with_fmap, <-soma_contar_um.
      clear. induction (contar texto) as [|p l IH]; simpl; lia.
Qed.

Lemma comprimir_limites_witness :
  ∃ raiz codigos,
    construir_arvore "abracadabra" = Ok (Some raiz, codigos) ∧
    11 ≤ String.length (comprimir "abracadabra" codigos) ∧
    ∀ L, 0 < L → 5 ≤ 2 ^ L →
      String.length (comprimir "abracadabra" codigos) ≤ L * 11.
Proof. apply (comprimir_limites "abracadabra"). discriminate. Defined.

(** A leaf is no deeper than the number of leaves allows. *)
Lemma folhas_profundidade no :
  arvore_ok no → ∀ p x, x ∈ folhas no p →
  String.length x.2 + 1 ≤ String.length p + length (pares no).
Proof.
  induction 1 as [c f|l r Hl IHl Hr IHr]; intros p x; cbn [folhas].
  { intros ->%list_elem_of_singleton. simpl. lia. }
  pose proof (arvore_ok_pares_length l Hl) as Hnl.
  pose proof (arvore_ok_pares_length r Hr) as Hnr.
  assert (0 < length (pares l) ∧ 0 < length (pares r)) as [??]
    by (destruct (char l), (char r); lia).
  rewrite pares_interna, length_app, elem_of_app.
  intros [Hx|Hx]; [apply IHl in Hx|apply IHr in Hx];
    rewrite string_app_length in Hx; simpl in Hx; lia.
Qed.

(** X7: in the table built for a non-empty text with [k] distinct symbols
    every code has at least one digit and at most [k - 1] (one digit when
    [k] is 1). *)
Theorem codigos_comprimento texto :
  texto ≠ "" →
  ∃ raiz codigos,
    construir_arvore texto = Ok (Some raiz, codigos) ∧
    ∀ k v, codigos !! k = Some v →
      1 ≤ String.length v ≤ Nat.max 1 (length (contar texto) - 1).
Proof.
  intros Hne.
  destruct (construir_arvore_ok texto Hne)
    as (raiz & codigos & Hc & Hok & Hpares & Hcase).
  exists raiz, codigos. split; [done|]. intros k v Hk.
  destruct Hcase as [(c & f & Hcont & -> & ->)|(Hlen & -> & _)].
  - apply lookup_singleton_Some in Hk as [_ <-]. simpl. lia.
  - apply gerar_codigos_no_inv in Hk as (c & f & -> & Hin); [|done].
    pose proof (folhas_profundidade _ Hok _ _ Hin) as Hd.
    rewrite Hpares in Hd. simpl in Hd.
    assert (char raiz = None) as Hchar.
    { pose proof (arvore_ok_pares_length raiz Hok) as Hl.
      destruct (char raiz); [|done].
      apply Permutation_length in Hpares. lia. }
    destruct raiz as [ch fr l r]. simpl in Hchar. subst ch.
    apply folhas_interna_length in Hin. simpl in Hin. lia.
Qed.

Lemma codigos_comprimento_witness :
  ∃ raiz codigos,
    construir_arvore "abracadabra" = Ok (Some raiz, codigos) ∧
    ∀ k v, codigos !! k = Some v → 1 ≤ String.length v ≤ 4.
Proof. apply (codigos_comprimento "abracadabra"). discriminate. Defined.

(** Codes with distinct symbols of which none is a prefix of another, as a
    list. *)
Lemma livre_de_triplas (l : list (ascii * nat * string)) :
  NoDup ((λ x, x.1.1) <$> l) →
  (∀ x y, x ∈ l → y ∈ l → x.1.1 ≠ y.1.1 → String.prefix x.2 y.2 = false) →
  livre_de_prefixos ((λ x, x.2) <$> l).
Proof.
  induction l as [|x l IH]; [done|].
  rewrite fmap_cons, NoDup_cons. intros [Hx Hnd] Hpre.
  rewrite fmap_cons. split.
  - intros v (y & -> & Hy)%list_elem_of_fmap.
    assert (x.1.1 ≠ y.1.1).
    { intros Heq. apply Hx. rewrite Heq.
      by apply (list_elem_of_fmap_2 (λ x, x.1.1)) in Hy. }
    split; apply Hpre; set_solver.
  - apply IH; [done|]. intros y z Hy Hz. apply Hpre; set_solver.
Qed.

(** X8: in the table built for a non-empty text a symbol that occurs more
    often than another never has the longer code. *)
Theorem codigos_monotonos texto :
  texto ≠ "" →
  ∃ raiz codigos,
    construir_arvore texto = Ok (Some raiz, codigos) ∧
    ∀ a b fa fb va vb,
      (a, fa) ∈ contar texto → (b, fb) ∈ contar texto → fb < fa →
      codigos !! Some a = Some va → codigos !! Some b = Some vb →
      String.length va ≤ String.length vb.
Proof.
  intros Hne.
  destruct (construir_arvore_tabela texto Hne)
    as (raiz & codigos & cods & Hc & _ & Hperm & Hlook & Hcod & Hpre & Hopt).
  exists raiz, codigos. split; [done|].
  intros a b fa fb va vb Ha Hb Hlt Hva Hvb.
  pose proof (contar_NoDup texto) as Hnd.
  assert (∀ c f f' v, (c, f) ∈ contar texto → (c, f', v) ∈ cods → f' = f)
    as Hf.
  { intros c f f' v H1 H2.
    apply (list_elem_of_fmap_2 (λ x, x.1)) in H2. rewrite Hperm in H2.
    simpl in H2.
    by pose proof (NoDup_fmap_eq fst _ _ _ Hnd H2 H1 eq_refl) as [= ->]. }
  apply Hlook in Hva as (a' & fa' & [= <-] & Hina).
  apply Hlook in Hvb as (b' & fb' & [= <-] & Hinb).
  pose proof (Hf _ _ _ _ Ha Hina) as ->. pose proof (Hf _ _ _ _ Hb Hinb) as ->.
  assert (a ≠ b) as Hab.
  { intros ->. pose proof (NoDup_fmap_eq fst _ _ _ Hnd Ha Hb eq_refl).
    simplify_eq. lia. }
  apply elem_of_Permutation in Hina as [l1 Hl1].
  assert ((b, fb, vb) ∈ l1) as [resto Hl2]%elem_of_Permutation.
  { rewrite Hl1 in Hinb. apply elem_of_cons in Hinb as [?|?]; [|done].
    by simplify_eq. }
  rewrite Hl2 in Hl1. clear Hl2 l1.
  assert (NoDup ((λ x, x.1.1) <$> cods)) as Hndc.
  { assert ((λ x : ascii * nat * string, x.1.1) <$> cods =
      ((λ x, x.1) <$> cods).*1) as -> by (by rewrite <-list_fmap_compose).
    by rewrite Hperm. }
  pose (ls := (fa, String.length vb) :: (fb, String.length va) ::
              ((λ x, (x.1.2, String.length x.2)) <$> resto)).
  assert (sum_list_with (λ x, x.1.2 * String.length x.2) cods ≤ custo_de ls)
    as Hle.
  { apply Hopt.
    - rewrite <-Hperm, Hl1, <-!list_fmap_compose. subst ls.
      rewrite !fmap_cons, <-list_fmap_compose. done.
    - assert (ls.*2 ≡ₚ String.length <$> ((λ x, x.2) <$> cods)) as ->.
      { rewrite Hl1. subst ls. rewrite !fmap_cons, <-!list_fmap_compose.
        simpl. apply perm_swap. }
      apply kraft_livre.
      + intros v (x & -> & Hx)%list_elem_of_fmap. by apply Hcod.
      + by apply livre_de_triplas.
    - right. apply Permutation_length in Hperm. rewrite Hl1 in Hperm.
      rewrite length_fmap in Hperm. simpl in Hperm. lia. }
  rewrite Hl1 in Hle. subst ls. unfold custo_de in Hle.
  simpl in Hle. rewrite sum_list_with_fmap in Hle.
  unfold compose in Hle. simpl in Hle. nia.
Qed.

Lemma codigos_monotonos_witness :
  ∃ raiz codigos,
    construir_arvore "abracadabra" = Ok (Some raiz, codigos) ∧
    ∀ a b fa fb va vb,
      (a, fa) ∈ contar "abracadabra" → (b, fb) ∈ contar "abracadabra" →
      fb < fa →
      codigos !! Some a = Some va → codigos !! Some b = Some vb →
      String.length va ≤ String.length vb.
Proof. apply (codigos_monotonos "abracadabra"). discriminate. Defined.


(** ** The encoded output and the order of the text *)

(** The table built for a non-empty text is a code table of least cost. *)
Lemma construir_arvore_minima texto :
  texto ≠ "" →
  ∃ raiz codigos,
    construir_arvore texto = Ok (Some raiz, codigos) ∧
    tabela_prefixa (contar texto) codigos ∧
    ∀ alt, tabela_prefixa (contar texto) alt →
      custo (contar texto) codigos ≤ custo (contar texto) alt.
Proof.
  intros Hne.
  destruct (construir_arvore_tabela texto Hne)
    as (raiz & codigos & cods & Hc & _ & Hperm & Hlook & Hcod & Hpre & Hopt).
  exists raiz, codigos. split_and!; [done| |].
  - split; [split|].
    + intros c Hin. apply contar_elem in Hin.
      destruct (tabela_lookup _ _ _ Hperm Hlook c Hin) as (f & v & Hv & Hl).
      exists v. split; [done|]. by apply (Hcod _ Hv).
    + intros c1 c2 v1 v2 _ _ Hne12 H1 H2.
      apply Hlook in H1 as (c1' & f1 & [= <-] & H1).
      apply Hlook in H2 as (c2' & f2 & [= <-] & H2).
      by apply (Hpre _ _ H1 H2).
    + intros c v _ (c' & f & [= <-] & Hin)%Hlook. by apply (Hcod _ Hin).
  - intros alt Halt.
    destruct (codigo_prefixo_kraft (contar texto) alt (contar_NoDup texto))
      as (Hw & Hk & <-); [apply Halt|].
    rewrite (custo_tabela _ _ _ Hperm Hlook).
    apply Hopt; [by rewrite Hw|done|].
    left. by apply tabela_prefixa_positiva.
Qed.

Lemma tabela_prefixa_chaves (fs1 fs2 : list (ascii * nat))
    (m : gmap (option ascii) string) :
  (∀ c, c ∈ fs1.*1 ↔ c ∈ fs2.*1) → tabela_prefixa fs1 m → tabela_prefixa fs2 m.
Proof.
  intros Hk [[Hcod Hpre] Hne]. split; [split|].
  - intros c Hc. apply Hcod, Hk, Hc.
  - intros c1 c2 v1 v2 H1 H2. apply Hpre; by apply Hk.
  - intros c v Hc. apply Hne, Hk, Hc.
Qed.

Lemma custo_permutado (t1 t2 : string) (m : gmap (option ascii) string) :
  String.list_ascii_of_string t1 ≡ₚ String.list_ascii_of_string t2 →
  custo (contar t1) m = custo (contar t2) m.
Proof.
  intros Hp. rewrite !custo_comprimir, !comprimir_length_soma. by rewrite Hp.
Qed.

(** X9: the length of the encoded output does not depend on the order of
    the characters: two texts that are rearrangements of each other are
    encoded, each with its own table, in the same number of digits. *)
Theorem comprimir_rearranjo (t1 t2 : string) :
  t1 ≠ "" →
  String.list_ascii_of_string t1 ≡ₚ String.list_ascii_of_string t2 →
  ∃ raiz1 codigos1 raiz2 codigos2,
    construir_arvore t1 = Ok (Some raiz1, codigos1) ∧
    construir_arvore t2 = Ok (Some raiz2, codigos2) ∧
    String.length (comprimir t1 codigos1) =
    String.length (comprimir t2 codigos2).
Proof.
  intros Hne Hp.
  assert (t2 ≠ "") as Hne2.
  { intros ->. apply Permutation_length in Hp. by destruct t1. }
  destruct (construir_arvore_minima t1 Hne) as (r1 & c1 & Hc1 & Ht1 & Hm1).
  destruct (construir_arvore_minima t2 Hne2) as (r2 & c2 & Hc2 & Ht2 & Hm2).
  exists r1, c1, r2, c2. split_and!; [done|done|].
  assert (∀ c, c ∈ (contar t1).*1 ↔ c ∈ (contar t2).*1) as Hk.
  { intros c. by rewrite !contar_elem, Hp. }
  rewrite <-!custo_comprimir. apply Nat.le_antisymm.
  - rewrite <-(custo_permutado t1 t2 c2 Hp). apply Hm1.
    by apply (tabela_prefixa_chaves (contar t2)).
  - rewrite (custo_permutado t1 t2 c1 Hp). apply Hm2.
    by apply (tabela_prefixa_chaves (contar t1)).
Qed.

Lemma comprimir_rearranjo_witness :
  ∃ raiz1 codigos1 raiz2 codigos2,
    construir_arvore "abracadabra" = Ok (Some raiz1, codigos1) ∧
    construir_arvore "aaaaabbrrcd" = Ok (Some raiz2, codigos2) ∧
    String.length (comprimir "abracadabra" codigos1) =
    String.length (comprimir "aaaaabbrrcd" codigos2).
Proof.
  apply (comprimir_rearranjo "abracadabra" "aaaaabbrrcd"); [discriminate|].
  apply (bool_decide_unpack _). vm_compute. exact I.
Defined.

(** ** [comprimir] and concatenation *)

Lemma juntar_app (codigos : gmap (option ascii) string) (t1 t2 : string) :
  juntar codigos (t1 +:+ t2) = juntar codigos t1 +:+ juntar codigos t2.
Proof.
  induction t1 as [|c t1 IH]; [done|].
  rewrite string_app_cons. cbn [juntar]. by rewrite IH, string_app_assoc.
Qed.

(** X10: encoding a text in two parts with the same table and putting the
    outputs together is encoding the whole text. *)
Theorem comprimir_app (t1 t2 : string)
    (codigos : gmap (option ascii) string) :
  comprimir (t1 +:+ t2) codigos =
  comprimir t1 codigos +:+ comprimir t2 codigos.
Proof.
  unfold comprimir. case_bool_decide; [done|]. apply juntar_app.
Qed.

(** ** The digits of the encoded output *)

Lemma juntar_binario (codigos : gmap (option ascii) string) (texto : string) :
  (∀ k v, codigos !! k = Some v → binario v = true) →
  binario (juntar codigos texto) = true.
Proof.
  intros Hb. induction texto as [|c t IH]; [done|].
  cbn [juntar]. rewrite binario_app, IH, andb_true_r.
  destruct (codigos !! Some c) as [v|] eqn:Hv; [|done]. by apply (Hb _ _ Hv).
Qed.

(** X11: with the table built for a non-empty text, the encoded output of
    any text, the same or another, is made of '0' and '1' only. *)
Theorem comprimir_binario texto :
  texto ≠ "" →
  ∃ raiz codigos,
    construir_arvore texto = Ok (Some raiz, codigos) ∧
    ∀ outro, binario (comprimir outro codigos) = true.
Proof.
  intros Hne.
  destruct (construir_arvore_tabela texto Hne)
    as (raiz & codigos & cods & Hc & _ & _ & Hlook & Hcod & _).
  exists raiz, codigos. split; [done|]. intros outro.
  unfold comprimir. case_bool_decide; [done|]. apply juntar_binario.
  intros k v (c & f & -> & Hin)%Hlook. by apply (Hcod _ Hin).
Qed.

Lemma comprimir_binario_witness :
  ∃ raiz codigos,
    construir_arvore "abracadabra" = Ok (Some raiz, codigos) ∧
    ∀ outro, binario (comprimir outro codigos) = true.
Proof. apply (comprimir_binario "abracadabra"). discriminate. Defined.

(** ** The encoding loses nothing *)

(** X12: with the table built for a non-empty text, two texts over the
    symbols of that text that have the same encoded output are the same
    text. *)
Theorem comprimir_injetiva texto :
  texto ≠ "" →
  ∃ raiz codigos,
    construir_arvore texto = Ok (Some raiz, codigos) ∧
    ∀ t1 t2,
      (∀ c, c ∈ String.list_ascii_of_string t1 →
            c ∈ String.list_ascii_of_string texto) →
      (∀ c, c ∈ String.list_ascii_of_string t2 →
            c ∈ String.list_ascii_of_string texto) →
      comprimir t1 codigos = comprimir t2 codigos → t1 = t2.
Proof.
  intros Hne.
  destruct (construir_arvore_tabela texto Hne)
    as (raiz & codigos & cods & Hc & _ & Hperm & Hlook & Hcod & Hpre & _).
  exists raiz, codigos. split; [done|]. intros t1 t2 H1 H2.
  pose proof (tabela_lookup _ _ _ Hperm Hlook) as Hall.
  assert (codigos ≠ ∅) as Hnemp.
  { destruct texto as [|c t]; [done|].
    destruct (Hall c) as (f & v & _ & Hv); [set_solver|].
    intros ->. by rewrite lookup_empty in Hv. }
  unfold comprimir. rewrite bool_decide_eq_false_2 by done. intros Heq.
  assert (∀ t, (∀ c, c ∈ String.list_ascii_of_string t →
                     c ∈ String.list_ascii_of_string texto) →
    decodificar_ate (String.length (juntar codigos t)) codigos
      (juntar codigos t) = Some t) as Hdec.
  { intros t Ht. apply decodificar_juntar; [| |done].
    - intros k1 k2 v1 v2 Hk1 Hk2 Hk.
      apply Hlook in Hk1 as (c1 & f1 & -> & Hk1).
      apply Hlook in Hk2 as (c2 & f2 & -> & Hk2).
      apply (Hpre _ _ Hk1 Hk2). simpl. congruence.
    - intros c Hin. destruct (Hall c (Ht c Hin)) as (f & v & Hv & Hl).
      exists v. split; [done|]. by apply (Hcod _ Hv). }
  pose proof (Hdec t1 H1) as D1. pose proof (Hdec t2 H2) as D2.
  rewrite Heq in D1. congruence.
Qed.

Lemma comprimir_injetiva_witness :
  ∃ raiz codigos,
    construir_arvore "abracadabra" = Ok (Some raiz, codigos) ∧
    ∀ t1 t2,
      (∀ c, c ∈ String.list_ascii_of_string t1 →
            c ∈ String.list_ascii_of_string "abracadabra") →
      (∀ c, c ∈ String.list_ascii_of_string t2 →
            c ∈ String.list_ascii_of_string "abracadabra") →
      comprimir t1 codigos = comprimir t2 codigos → t1 = t2.
Proof. apply (comprimir_injetiva "abracadabra"). discriminate. Defined.


(** ** [gerar_codigos] on any tree and any dictionary *)

(** [gerar_codigos] is a sequence of writes, one for every leaf it reaches,
    whatever the shape of the tree. *)
Lemma gerar_codigos_no_foldl no :
  ∀ p m, gerar_codigos_no no p m =
         foldl (λ m x, <[Some x.1.1 := x.2]> m) m (folhas no p).
Proof.
  induction no as [c f l r IHl IHr] using NoHuffman_ind'. intros p m.
  cbn [gerar_codigos_no folhas]. destruct c as [a|]; [done|].
  rewrite foldl_app.
  destruct l as [e|], r as [d|]; simpl;
    rewrite ?(IHr d eq_refl), ?(IHl e eq_refl); done.
Qed.

Lemma gerar_codigos_foldl raiz p m :
  gerar_codigos raiz p m =
  foldl (λ m x, <[Some x.1.1 := x.2]> m) m (escritas raiz p).
Proof. destruct raiz as [no|]; [apply gerar_codigos_no_foldl|done]. Qed.

(** What a sequence of writes leaves under a key: the last value written
    there, or what was there before. *)
Lemma escrever_lookup (s : list (ascii * nat * string))
    (m : gmap (option ascii) string) k :
  foldl (λ m x, <[Some x.1.1 := x.2]> m) m s !! k =
  match foldl (λ acc x, if decide (Some x.1.1 = k) then Some x.2 else acc)
          None s with
  | Some v => Some v
  | None => m !! k
  end.
Proof.
  induction s as [|x s IH] using rev_ind; [done|].
  rewrite !foldl_app. simpl. case_decide as Hk.
  - subst k. by rewrite lookup_insert_eq.
  - by rewrite lookup_insert_ne.
Qed.

Lemma escrever_nada (s : list (ascii * nat * string)) k :
  (∀ x, x ∈ s → Some x.1.1 ≠ k) →
  foldl (λ acc x, if decide (Some x.1.1 = k) then Some x.2 else acc) None s
  = None.
Proof.
  induction s as [|x s IH] using rev_ind; [done|]. intros Hk.
  rewrite foldl_app. simpl. rewrite decide_False by (apply Hk; set_solver).
  apply IH. intros y Hy. apply Hk. set_solver.
Qed.

(** X13: on any tree and any dictionary, [gerar_codigos] changes no entry
    but those of the characters of the leaves it reaches, and a second run
    on its own result changes nothing. *)
Theorem gerar_codigos_de_novo (raiz : option NoHuffman)
    (codigo_atual : string) (codigos : gmap (option ascii) string) :
  (∀ k, (∀ x, x ∈ escritas raiz codigo_atual → Some x.1.1 ≠ k) →
        gerar_codigos raiz codigo_atual codigos !! k = codigos !! k) ∧
  gerar_codigos raiz codigo_atual (gerar_codigos raiz codigo_atual codigos)
  = gerar_codigos raiz codigo_atual codigos.
Proof.
  split.
  - intros k Hk. by rewrite gerar_codigos_foldl, escrever_lookup, escrever_nada.
  - apply map_eq. intros k.
    rewrite (gerar_codigos_foldl raiz codigo_atual (gerar_codigos _ _ _)).
    rewrite escrever_lookup, gerar_codigos_foldl, escrever_lookup.
    by destruct (foldl _ None _).
Qed.

(** ** The loop of [construir_arvore] *)

Lemma fundir_um n (no : NoHuffman) : fundir n [no] = Ok [no].
Proof. by destruct n. Qed.

(** The tree [construir_arvore] returns is the one the loop ends with,
    started on the heap of the leaves. *)
Lemma construir_arvore_fundir texto :
  texto ≠ "" →
  ∃ heap raiz codigos,
    heap ≡ₚ folha <$> contar texto ∧ is_heap freq heap ∧
    construir_arvore texto = Ok (Some raiz, codigos) ∧
    fundir (length heap) heap = Ok [raiz].
Proof.
  intros Hne.
  destruct (construir_arvore_ok texto Hne) as (raiz & codigos & Hc & _).
  revert Hc. unfold construir_arvore.
  rewrite bool_decide_eq_false_2 by done.
  destruct (empilhar_spec (contar texto) []) as (heap & -> & Hperm & Hheap);
    [apply is_heap_nil|].
  rewrite app_nil_r in Hperm. passo.
  case_bool_decide as H1.
  - destruct heap as [|x [|? ?]]; [done| |done].
    rewrite heappop_um. passo. intros [= <- <-].
    exists [x], x, {[char x := "0"]}. done.
  - destruct (fundir_arvore (length heap) heap) as (r & Hf & _);
      [done| |done| |].
    { intros ->. apply Permutation_nil_l in Hperm. symmetry in Hperm.
      apply fmap_nil_inv in Hperm.
      by apply (contar_nonempty texto Hne). }
    { rewrite Hperm. apply Forall_fmap, Forall_true. apply folha_ok. }
    rewrite Hf. passo. rewrite heappop_um. passo. intros [= <- <-].
    exists heap, r, (gerar_codigos (Some r) "" ∅). done.
Qed.

(** X14: in the tree built for a non-empty text the left child of a node is
    never heavier than the right child: the node popped first goes to the
    left. *)
Theorem construir_arvore_esquerda_leve texto :
  texto ≠ "" →
  ∃ raiz codigos,
    construir_arvore texto = Ok (Some raiz, codigos) ∧ esquerda_leve raiz.
Proof.
  intros Hne.
  destruct (construir_arvore_fundir texto Hne)
    as (heap & raiz & codigos & Hperm & Hheap & Hc & Hf).
  exists raiz, codigos. split; [done|].
  destruct (fundir_ind (λ heap raiz,
    Forall esquerda_leve heap → esquerda_leve raiz))
    with (n := length heap) (heap := heap) as (raiz' & Hf' & HP).
  - intros r Hr. by inversion Hr.
  - clear. intros heap heap' no1 no2 resto raiz Hp Hp' Hm1 _ IH Hall.
    rewrite Hp in Hall. apply Forall_cons in Hall as [H1 Hall].
    apply Forall_cons in Hall as [H2 Hall].
    apply IH. rewrite Hp'. constructor; [|done].
    intros n l r Hn Hl Hr. simpl in Hn.
    rewrite elem_of_cons, elem_of_app in Hn.
    destruct Hn as [->|[Hn|Hn]].
    + simpl in Hl, Hr. simplify_eq. apply Hm1. set_solver.
    + by apply (H1 n).
    + by apply (H2 n).
  - done.
  - intros ->. apply Permutation_nil_l in Hperm. symmetry in Hperm.
    apply fmap_nil_inv in Hperm. by apply (contar_nonempty texto Hne).
  - done.
  - rewrite Hf in Hf'. simplify_eq. apply HP. rewrite Hperm.
    apply Forall_fmap, Forall_true. intros [c f] n l r Hn Hl.
    apply list_elem_of_singleton in Hn as ->. done.
Qed.

Lemma construir_arvore_esquerda_leve_witness :
  ∃ raiz codigos,
    construir_arvore "abracadabra" = Ok (Some raiz, codigos) ∧
    esquerda_leve raiz.
Proof. apply (construir_arvore_esquerda_leve "abracadabra"). discriminate. Defined.


(** ** [heapq] as the program uses it *)

Section heapq_uso.
Context {A : Type} (lt : A → A → bool) (key : A → nat).
Hypothesis lt_key : ∀ a b, lt a b = bool_decide (key a < key b).

(** X15: [heappush] on a list in heap order returns, without raising, a
    list in heap order that holds the item and what the list held. *)
Theorem heappush_ordem (heap : list A) (item : A) :
  is_heap key heap →
  ∃ heap', heapq.heappush lt heap item = Ok heap' ∧
           heap' ≡ₚ item :: heap ∧ is_heap key heap'.
Proof.
  intros Hh. destruct (heappush_perm lt heap item) as (heap' & Hpush & Hp).
  exists heap'. split_and!; [done|done|].
  by apply (heappush_heap lt key lt_key heap item).
Qed.

(** X16: [heappop] on a non-empty list in heap order returns, without
    raising, an element that no other is smaller than, and the rest of the
    list, again in heap order. *)
Theorem heappop_minimo (heap : list A) :
  is_heap key heap → heap ≠ [] →
  ∃ x heap', heapq.heappop lt heap = Ok (x, heap') ∧
             heap ≡ₚ x :: heap' ∧ is_heap key heap' ∧
             ∀ y, y ∈ heap → key x ≤ key y.
Proof.
  intros Hh Hne. destruct (heappop_perm lt heap Hne) as (x & heap' & Hpop & Hp).
  exists x, heap'.
  destruct (heappop_heap lt key lt_key heap x heap' Hh Hpop). done.
Qed.
End heapq_uso.

Lemma is_heap_dois (a b : NoHuffman) : freq a ≤ freq b → is_heap freq [a; b].
Proof.
  intros Hab i Hi x p Hx Hp. destruct i as [|[|i]]; [lia| |done].
  simpl in Hx, Hp. by simplify_eq.
Qed.

Lemma heappush_ordem_witness :
  ∃ heap', heapq.heappush NoHuffman_lt [folha ("a"%char, 2); folha ("b"%char, 5)]
             (folha ("c"%char, 1)) = Ok heap' ∧
    heap' ≡ₚ [folha ("c"%char, 1); folha ("a"%char, 2); folha ("b"%char, 5)] ∧
    is_heap freq heap'.
Proof.
  apply (heappush_ordem NoHuffman_lt freq).
  - reflexivity.
  - apply is_heap_dois. simpl. lia.
Defined.

Lemma heappop_minimo_witness :
  ∃ x heap', heapq.heappop NoHuffman_lt [folha ("a"%char, 2); folha ("b"%char, 5)]
               = Ok (x, heap') ∧
    [folha ("a"%char, 2); folha ("b"%char, 5)] ≡ₚ x :: heap' ∧
    is_heap freq heap' ∧
    ∀ y, y ∈ [folha ("a"%char, 2); folha ("b"%char, 5)] → freq x ≤ freq y.
Proof.
  apply (heappop_minimo NoHuffman_lt freq).
  - reflexivity.
  - apply is_heap_dois. simpl. lia.
  - discriminate.
Defined.

(** ** The sizes [main] compares *)

Lemma digito_inj a b : digito a = digito b → a = b.
Proof. by destruct a, b. Qed.

Lemma bits_de_ascii b0 b1 b2 b3 b4 b5 b6 b7 :
  bits_de (byte_of_ascii (Ascii b0 b1 b2 b3 b4 b5 b6 b7)) =
  String (digito b7) (String (digito b6) (String (digito b5)
    (String (digito b4) (String (digito b3) (String (digito b2)
      (String (digito b1) (String (digito b0) ""))))))).
Proof. unfold bits_de. by rewrite ascii_of_byte_of_ascii. Qed.

Lemma codigo_utf8_length c :
  String.length (codigo_utf8 c) = length (utf8 c) * 8.
Proof.
  destruct c as [b0 b1 b2 b3 b4 b5 b6 b7]. unfold codigo_utf8, utf8.
  destruct b7; cbn [foldr]; rewrite !bits_de_ascii; reflexivity.
Qed.

Lemma digito_binario b s : binario (String (digito b) s) = binario s.
Proof. by destruct b. Qed.

Lemma codigo_utf8_binario c : binario (codigo_utf8 c) = true.
Proof.
  destruct c as [b0 b1 b2 b3 b4 b5 b6 b7]. unfold codigo_utf8, utf8.
  destruct b7; cbn [foldr]; rewrite !bits_de_ascii;
    rewrite ?string_app_cons, ?string_app_nil_l, ?string_app_nil_r;
    by rewrite !digito_binario.
Qed.

Lemma prefix_mesmo_comprimento s t :
  String.length s = String.length t → String.prefix s t = true → s = t.
Proof.
  intros Hlen [u ->]%prefix_iff. rewrite string_app_length in Hlen.
  assert (u = "") as -> by (apply string_length_0; lia).
  by rewrite string_app_nil_r.
Qed.

Lemma codigo_utf8_inj c1 c2 : codigo_utf8 c1 = codigo_utf8 c2 → c1 = c2.
Proof.
  destruct c1 as [a0 a1 a2 a3 a4 a5 a6 a7], c2 as [b0 b1 b2 b3 b4 b5 b6 b7].
  unfold codigo_utf8, utf8.
  destruct a7, b7; cbn [foldr]; rewrite !bits_de_ascii;
    rewrite ?string_app_cons, ?string_app_nil_l, ?string_app_nil_r;
    intros Heq; try discriminate; injection Heq; intros;
    repeat match goal with H : digito _ = digito _ |- _ =>
      apply digito_inj in H end; by subst.
Qed.

(** UTF-8 is a prefix code: the bytes of a character do not start the
    bytes of another. *)
Lemma codigo_utf8_prefixo c1 c2 :
  c1 ≠ c2 → String.prefix (codigo_utf8 c1) (codigo_utf8 c2) = false.
Proof.
  intros Hne. apply not_true_is_false. intros Hp.
  destruct (decide (String.length (codigo_utf8 c1) =
                    String.length (codigo_utf8 c2))) as [Hl|Hl].
  { by apply Hne, codigo_utf8_inj, prefix_mesmo_comprimento. }
  revert Hp Hl.
  destruct c1 as [a0 a1 a2 a3 a4 a5 a6 a7], c2 as [b0 b1 b2 b3 b4 b5 b6 b7].
  unfold codigo_utf8, utf8.
  destruct a7, b7; cbn [foldr]; rewrite !bits_de_ascii;
    rewrite ?string_app_cons, ?string_app_nil_l, ?string_app_nil_r;
    simpl; done.
Qed.

Lemma codigo_utf8_livre (l : list ascii) :
  NoDup l → livre_de_prefixos (codigo_utf8 <$> l).
Proof.
  induction l as [|c l IH]; [done|]. rewrite NoDup_cons. intros [Hc Hnd].
  rewrite fmap_cons. split; [|by apply IH].
  intros v (c' & -> & Hin)%list_elem_of_fmap.
  assert (c ≠ c') by (by intros ->).
  split; by apply codigo_utf8_prefixo.
Qed.

Lemma encode_utf8_length texto :
  sum_list_with (λ c, String.length (codigo_utf8 c))
    (String.list_ascii_of_string texto) =
  length (encode_utf8 texto) * 8.
Proof.
  induction texto as [|c t IH]; [done|]. simpl.
  rewrite IH, codigo_utf8_length, length_app. lia.
Qed.

(** X17: for every text, the encoding at lines 115-116 returns and the
    size [main] takes of the encoded output is at most the size it takes
    of the text, eight bits for every byte of its UTF-8 form. *)
Theorem tamanho_comprimido_limite (texto_original : string) :
  ∃ n, tamanho_comprimido texto_original = Ok n ∧
       n ≤ tamanho_original texto_original.
Proof.
  unfold tamanho_comprimido, tamanho_original.
  destruct (decide (texto_original = "")) as [->|Hne].
  { exists 0. done. }
  destruct (construir_arvore_tabela texto_original Hne)
    as (raiz & codigos & cods & -> & _ & Hperm & Hlook & _ & _ & Hopt).
  passo. eexists. split; [done|].
  rewrite <-custo_comprimir, (custo_tabela _ _ _ Hperm Hlook).
  rewrite <-encode_utf8_length.
  rewrite <-(soma_contar (λ c, String.length (codigo_utf8 c))).
  etrans; [apply (Hopt ((λ p, (p.2, String.length (codigo_utf8 p.1)))
                          <$> contar texto_original))|].
  - by rewrite <-list_fmap_compose.
  - assert (((λ p : ascii * nat, (p.2, String.length (codigo_utf8 p.1)))
        <$> contar texto_original).*2 =
      String.length <$> (codigo_utf8 <$> (contar texto_original).*1)) as ->
      by (by rewrite <-!list_fmap_compose).
    apply kraft_livre.
    + intros v (c & -> & _)%list_elem_of_fmap. apply codigo_utf8_binario.
    + apply codigo_utf8_livre, contar_NoDup.
  - left. rewrite <-list_fmap_compose.
    intros l (p & -> & _)%list_elem_of_fmap. simpl.
    rewrite codigo_utf8_length. destruct (p.1) as [? ? ? ? ? ? ? []]; simpl; lia.
  - unfold custo_de. by rewrite sum_list_with_fmap.
Qed.
